(** * swaps-service: the cached block walker and the swap output scanner

    A shallow embedding of [get_past_blocks] (the cache-assisted backward
    block walker) and of [scan/swap_scanner.js] (the swap output scanner),
    together with the properties of both that the specification states. *)

From Stdlib Require Import ZArith Lia Bool.
From stdpp Require Import base tactics option list strings.

Set Warnings "-register-all".
Local Open Scope string_scope.
Local Open Scope list_scope.
Local Open Scope Z_scope.

(** ** JavaScript values *)

(** The values that travel through both modules: hashes, scripts and
    invoices are strings, counts are numbers, blocks, swap records and
    notification payloads are object literals, errors are [[code, message]]
    arrays.  An object is the list of its own properties in insertion order;
    a property whose value is [undefined] is still a property. *)
Inductive JsVal : Type :=
| JUndefined
| JNull
| JBool (b : bool)
| JNum (n : Z)
| JStr (s : string)
| JArr (items : list JsVal)
| JObj (props : list (string * JsVal)).

(** [!!v] *)
Definition truthy (v : JsVal) : bool :=
  match v with
  | JUndefined | JNull => false
  | JBool b => b
  | JNum n => negb (n =? 0)
  | JStr s => negb (String.eqb s "")
  | JArr _ | JObj _ => true
  end.

Fixpoint assoc (k : string) (props : list (string * JsVal)) : JsVal :=
  match props with
  | [] => JUndefined
  | (k', v) :: rest => if String.eqb k k' then v else assoc k rest
  end.

(** [v.k] for a name [k] that no prototype defines: the own property of an
    object, [undefined] on anything else.  Both modules read properties only
    from object literals, from records of the detector and from values
    already tested truthy, so the read never throws. *)
Definition get_field (v : JsVal) (k : string) : JsVal :=
  match v with
  | JObj props => assoc k props
  | _ => JUndefined
  end.

(** The own property names of a value. *)
Definition keys (v : JsVal) : list string :=
  match v with
  | JObj props => map fst props
  | _ => []
  end.

(** [v === 'lit'] against a string literal, as the [switch] of the scanner
    compares. *)
Definition is_str (v : JsVal) (lit : string) : bool :=
  match v with
  | JStr s => String.eqb s lit
  | _ => false
  end.

Fixpoint JsVal_eqb (x y : JsVal) {struct x} : bool :=
  match x, y with
  | JUndefined, JUndefined => true
  | JNull, JNull => true
  | JBool a, JBool b => Bool.eqb a b
  | JNum a, JNum b => a =? b
  | JStr a, JStr b => String.eqb a b
  | JArr xs, JArr ys =>
      (fix all2 (xs ys : list JsVal) {struct xs} : bool :=
         match xs, ys with
         | [], [] => true
         | x :: xs, y :: ys => JsVal_eqb x y && all2 xs ys
         | _, _ => false
         end) xs ys
  | JObj ps, JObj qs =>
      (fix all2 (ps qs : list (string * JsVal)) {struct ps} : bool :=
         match ps, qs with
         | [], [] => true
         | (k, x) :: ps, (l, y) :: qs =>
             String.eqb k l && JsVal_eqb x y && all2 ps qs
         | _, _ => false
         end) ps qs
  | _, _ => false
  end.

(** ** Asynchronous calls *)

(** A call that ends by invoking its callback with [(err)] or with
    [(null, result)]. *)
Definition Err : Type := JsVal.

Inductive Outcome (A : Type) : Type :=
| Failed (err : Err)
| Done (result : A).
Arguments Failed {A} err.
Arguments Done {A} result.

(** ** The world outside the walker *)

(** One cache entry: the stored JSON and the instant it expires. *)
Record Entry : Type := mkEntry { value : JsVal; expires : Z }.

(** What the outside does during one remote call: the time the call takes
    and, possibly, the failure it ends with. *)
Record Turn : Type := mkTurn { elapsed : N; fault : option Err }.

(** The calls the walker makes to its collaborators, with their results. *)
Inductive Event : Type :=
| CacheGet (cache key type : JsVal) (res : Outcome JsVal)
| ChainGet (network id : JsVal) (res : Outcome JsVal)
| CacheSet (cache key : JsVal) (ms : Z) (type value : JsVal) (res : Outcome unit).

(** The state a walk runs against: the clock (in ms), the cache backends
    (addressed by selector, type and key), the chain of the block source, the
    turns the outside will take at the coming calls, and the log of the calls
    made so far. *)
Record World : Type := mkWorld {
  clock : Z;
  store : JsVal -> JsVal -> JsVal -> option Entry;
  chain : JsVal -> JsVal -> Outcome (JsVal * JsVal);
  turns : list Turn;
  trace : list Event;
}.

(** Computations that call the collaborators. *)
Definition M (A : Type) : Type := World -> World * Outcome A.

Definition ret {A} (a : A) : M A := fun w => (w, Done a).

Definition bind {A B} (c : M A) (k : A -> M B) : M B :=
  fun w =>
    match c w with
    | (w', Failed err) => (w', Failed err)
    | (w', Done a) => k a w'
    end.

Notation "'let*' x ':=' c 'in' k" := (bind c (fun x => k))
  (at level 10, x name, c at level 100, k at level 200).

(** The outside takes its turn: the clock advances by the time the call
    takes.  When no turn is scripted the call is instantaneous and does not
    fail. *)
Definition take_turn (w : World) : option Err * World :=
  match turns w with
  | [] => (None, w)
  | t :: ts =>
      (fault t, mkWorld (clock w + Z.of_N (elapsed t)) (store w) (chain w) ts (trace w))
  end.

Definition log (e : Event) (w : World) : World :=
  mkWorld (clock w) (store w) (chain w) (turns w) (trace w ++ [e]).

Module Cache.

(** Modelled from the spec: the cache module ([./../cache]) is not among the
    sources.  "TTL Cache (consumed): get(type, key) -> value | absent;
    set(type, key, value, ttl_ms) -> success | failure"; an entry "carries a
    fixed time-to-live ... set at write time" and "the cache backend owns
    expiry".  An absent or expired entry reads as [undefined]. *)
Definition read (w : World) (cache type key : JsVal) : JsVal :=
  match store w cache type key with
  | Some en => if clock w <? expires en then value en else JUndefined
  | None => JUndefined
  end.

Definition getJsonFromCache (cache key type : JsVal) : M JsVal :=
  fun w =>
    let '(flt, w1) := take_turn w in
    let res := match flt with
               | Some err => Failed err
               | None => Done (read w1 cache type key)
               end in
    (log (CacheGet cache key type res) w1, res).

Definition write (w : World) (cache type key : JsVal) (en : Entry) : World :=
  mkWorld (clock w)
    (fun c t k =>
       if JsVal_eqb c cache && JsVal_eqb t type && JsVal_eqb k key then Some en
       else store w c t k)
    (chain w) (turns w) (trace w).

Definition setJsonInCache (cache key : JsVal) (ms : Z) (type value : JsVal)
  : M unit :=
  fun w =>
    let '(flt, w1) := take_turn w in
    match flt with
    | Some err => (log (CacheSet cache key ms type value (Failed err)) w1, Failed err)
    | None =>
        (log (CacheSet cache key ms type value (Done tt))
           (write w1 cache type key (mkEntry value (clock w1 + ms))),
         Done tt)
    end.

End Cache.

Module Chain.

(** Modelled from the spec: the chain module ([./../chain]) is not among the
    sources.  "Block Source (consumed): fetchBlock(network, blockId) ->
    {previous_block_hash, transaction_ids} | failure". *)
Definition block (prev txs : JsVal) : JsVal :=
  JObj [("previous_block_hash", prev); ("transaction_ids", txs)].

Definition getBlock (network id : JsVal) : M JsVal :=
  fun w =>
    let '(flt, w1) := take_turn w in
    let res := match flt with
               | Some err => Failed err
               | None =>
                   match chain w1 network id with
                   | Failed err => Failed err
                   | Done (prev, txs) => Done (block prev txs)
                   end
               end in
    (log (ChainGet network id res) w1, res).

End Chain.

Module AsyncUtil.

(** Modelled from the spec: [returnResult] of [./../async-util] is not among
    the sources.  The walker yields "{blocks: [Block...]} or a [code,
    message] failure pair" and a failure is "reported as-is (not wrapped)":
    the helper hands a failure on unchanged and otherwise passes on the
    result of the task named by [of_]. *)
Definition returnResult (of_ : string) (res : Outcome JsVal) : Outcome JsVal :=
  match res with
  | Failed err => Failed err
  | Done results => Done (get_field results of_)
  end.

End AsyncUtil.

(** ** The cached block walker ([get_past_blocks]) *)

Module GetPastBlocks.

Definition blockExpirationMs : Z := 1000 * 60 * 60 * 3.
Definition fetchBlocksCount : nat := 10.

(** The two variables the loop closes over. *)
Record Vars : Type := mkVars { blocks : list JsVal; cursor : JsVal }.

Section Walk.

Variables cache network : JsVal.

(** [() => blocks.length < fetchBlocksCount && cursor] *)
Definition test (v : Vars) : bool :=
  (length (blocks v) <? fetchBlocksCount)%nat && truthy (cursor v).

(** See if we have a cached block *)
Definition getCachedBlock (v : Vars) : M JsVal :=
  Cache.getJsonFromCache cache (cursor v) (JStr "block").

(** Get the block *)
Definition getBlock (v : Vars) (getCachedBlock : JsVal) : M JsVal :=
  if truthy getCachedBlock then
    ret (JObj [("is_cached", JBool true);
               ("previous_block_hash", get_field getCachedBlock "previous_block_hash");
               ("transaction_ids", get_field getCachedBlock "transaction_ids")])
  else Chain.getBlock network (cursor v).

(** Add the block to the cache *)
Definition setCachedBlock (v : Vars) (getBlock : JsVal) : M JsVal :=
  if truthy (get_field getBlock "is_cached") then ret JUndefined
  else
    let* _ := Cache.setJsonInCache cache (cursor v) blockExpirationMs (JStr "block")
                (JObj [("previous_block_hash", get_field getBlock "previous_block_hash");
                       ("transaction_ids", get_field getBlock "transaction_ids")]) in
    ret JUndefined.

(** Final blocks result: the task assigns [cursor], pushes onto [blocks]
    and results in [{blocks}]. *)
Definition blocks_task (v : Vars) (getBlock : JsVal) : Vars * JsVal :=
  let v' := mkVars (blocks v ++ [getBlock]) (get_field getBlock "previous_block_hash") in
  (v', JObj [("blocks", JArr (blocks v'))]).

(** The [asyncAuto] of one iteration.  [setCachedBlock] and [blocks] both
    wait for [getBlock] only; async starts the tasks that become ready in
    the order the object lists them, so [setCachedBlock] has read [cursor]
    for its key before [blocks] assigns it, and the final callback waits
    for the cache write.  When a task fails the results are dropped and
    the loop never reads its variables again. *)
Definition auto (v : Vars) : M (Vars * JsVal) :=
  let* cached := getCachedBlock v in
  let* block := getBlock v cached in
  let* written := setCachedBlock v block in
  let '(v', result) := blocks_task v block in
  ret (v', JObj [("getCachedBlock", cached); ("getBlock", block);
                 ("setCachedBlock", written); ("blocks", result)]).

(** [cbk => asyncAuto({...}, returnResult({of: 'blocks'}, cbk))] *)
Definition iteratee (v : Vars) : M (Vars * JsVal) :=
  fun w =>
    match auto v w with
    | (w', Failed err) =>
        (w', match AsyncUtil.returnResult "blocks" (Failed err) with
             | Failed err' => Failed err'
             | Done r => Done (v, r)
             end)
    | (w', Done (v', results)) =>
        (w', match AsyncUtil.returnResult "blocks" (Done results) with
             | Failed err' => Failed err'
             | Done r => Done (v', r)
             end)
    end.

(** [asyncWhilst(test, iteratee, cbk)]: the test runs before every
    iteration; a failed iteration ends the loop with its failure; when the
    test fails the callback receives the result of the last iteration.
    [fuel] bounds the number of iterations; [None] means it ran out. *)
Fixpoint asyncWhilst (fuel : nat) (v : Vars) (last : JsVal) (w : World)
  : option (World * Outcome JsVal) :=
  if test v then
    match fuel with
    | O => None
    | S fuel' =>
        match iteratee v w with
        | (w', Failed err) => Some (w', Failed err)
        | (w', Done (v', result)) => asyncWhilst fuel' v' result w'
        end
    end
  else Some (w, Done last).

End Walk.

Definition error (code : Z) (message : string) : Err :=
  JArr [JNum code; JStr message].

(** [module.exports = ({cache, current, network}, cbk) => ...] *)
Definition getPastBlocks (cache current network : JsVal) (w : World)
  : option (World * Outcome JsVal) :=
  if negb (truthy cache) then
    Some (w, Failed (error 400 "ExpectedCacheToCheckAgainst"))
  else if negb (truthy current) then
    Some (w, Failed (error 400 "ExpectedCurrentBlockHash"))
  else if negb (truthy network) then
    Some (w, Failed (error 400 "ExpectedNetworkName"))
  else
    asyncWhilst cache network fetchBlocksCount (mkVars [] current) JUndefined w.

End GetPastBlocks.

(** A small chain for trying the walker: block [b3] -> [b2] -> [b1], the last
    without a previous hash. *)
Module Demo.
Import GetPastBlocks.

Definition chain3 (network id : JsVal) : Outcome (JsVal * JsVal) :=
  if is_str id "b3" then Done (JStr "b2", JArr [JStr "t5"; JStr "t6"])
  else if is_str id "b2" then Done (JStr "b1", JArr [JStr "t3"])
  else if is_str id "b1" then Done (JUndefined, JArr [JStr "t1"; JStr "t2"])
  else Failed (error 503 "UnknownBlock").

Definition empty_store : JsVal -> JsVal -> JsVal -> option Entry :=
  fun _ _ _ => None.

Definition w0 : World := mkWorld 0 empty_store chain3 [] [].

(** A first walk from [b3] against the empty cache: the world and the result
    it leaves. *)
Definition walk1 : option (World * Outcome JsVal) :=
  getPastBlocks (JStr "memory") (JStr "b3") (JStr "testnet") w0.

Definition w1 : World :=
  match walk1 with Some (w', _) => w' | None => w0 end.

Definition page1 : JsVal :=
  match walk1 with Some (_, Done res) => res | _ => JUndefined end.

(** Five milliseconds later, a second walk from [b2]. *)
Definition w2 : World := mkWorld (clock w1 + 5) (store w1) chain3 [] (trace w1).

Definition walk2 : option (World * Outcome JsVal) :=
  getPastBlocks (JStr "memory") (JStr "b2") (JStr "testnet") w2.

Definition w3 : World :=
  match walk2 with Some (w', _) => w' | None => w2 end.

Definition page2 : JsVal :=
  match walk2 with Some (_, Done res) => res | _ => JUndefined end.

(** A walk during which the cache backend goes down: the read and the fetch
    of the first iteration go through, the write fails. *)
Definition w_down : World :=
  mkWorld 0 empty_store chain3
    [mkTurn 2 None; mkTurn 40 None; mkTurn 7 (Some (error 503 "CacheDown"))] [].

Definition walk_down : option (World * Outcome JsVal) :=
  getPastBlocks (JStr "memory") (JStr "b3") (JStr "testnet") w_down.

Definition w_down' : World :=
  match walk_down with Some (w', _) => w' | None => w_down end.

Definition out_down : Outcome JsVal :=
  match walk_down with Some (_, out) => out | None => Done JUndefined end.
End Demo.

(** ** What a walk did, read off the log *)

(** The calls made between two states of the world. *)
Definition calls (w w' : World) : list Event :=
  drop (length (trace w)) (trace w').

(** One iteration that completed: the cursor was found in the cache, or it was
    not ([found] is the falsy value the lookup gave), the block source
    delivered the block and the cache took it. *)
Inductive Resolution : Type :=
| Hit (key found : JsVal)
| Miss (key found prev txs : JsVal).

(** The iteration that failed: at the cache read, at the block source, or at
    the cache write. *)
Inductive Failure : Type :=
| GetFailed (key : JsVal) (err : Err)
| FetchFailed (key found : JsVal) (err : Err)
| SetFailed (key found prev txs : JsVal) (err : Err).

Section Runs.

Variables cache network : JsVal.

Definition key_of (r : Resolution) : JsVal :=
  match r with Hit key _ => key | Miss key _ _ _ => key end.

Definition found_of (r : Resolution) : JsVal :=
  match r with Hit _ found => found | Miss _ found _ _ => found end.

(** The element the iteration pushed onto [blocks]. *)
Definition block_of (r : Resolution) : JsVal :=
  match r with
  | Hit _ found =>
      JObj [("is_cached", JBool true);
            ("previous_block_hash", get_field found "previous_block_hash");
            ("transaction_ids", get_field found "transaction_ids")]
  | Miss _ _ prev txs => Chain.block prev txs
  end.

(** The value [cursor] holds after the iteration. *)
Definition prev_of (r : Resolution) : JsVal :=
  get_field (block_of r) "previous_block_hash".

Definition lookup_event (key : JsVal) (res : Outcome JsVal) : Event :=
  CacheGet cache key (JStr "block") res.

Definition write_event (key prev txs : JsVal) (res : Outcome unit) : Event :=
  CacheSet cache key GetPastBlocks.blockExpirationMs (JStr "block")
    (JObj [("previous_block_hash", prev); ("transaction_ids", txs)]) res.

(** The calls of the iteration, in order. *)
Definition events_of (r : Resolution) : list Event :=
  match r with
  | Hit key found => [lookup_event key (Done found)]
  | Miss key found prev txs =>
      [lookup_event key (Done found);
       ChainGet network key (Done (Chain.block prev txs));
       write_event key prev txs (Done tt)]
  end.

Definition failure_key (f : Failure) : JsVal :=
  match f with
  | GetFailed key _ | FetchFailed key _ _ | SetFailed key _ _ _ _ => key
  end.

Definition failure_err (f : Failure) : Err :=
  match f with
  | GetFailed _ err | FetchFailed _ _ err | SetFailed _ _ _ _ err => err
  end.

(** What the cache read of the failed iteration gave, when it did not fail
    itself. *)
Definition failure_found (f : Failure) : option JsVal :=
  match f with
  | GetFailed _ _ => None
  | FetchFailed _ found _ | SetFailed _ found _ _ _ => Some found
  end.

Definition failure_events (f : Failure) : list Event :=
  match f with
  | GetFailed key err => [lookup_event key (Failed err)]
  | FetchFailed key found err =>
      [lookup_event key (Done found); ChainGet network key (Failed err)]
  | SetFailed key found prev txs err =>
      [lookup_event key (Done found);
       ChainGet network key (Done (Chain.block prev txs));
       write_event key prev txs (Failed err)]
  end.

(** A hit carries a truthy cached value, a miss a falsy one. *)
Definition sound (r : Resolution) : Prop :=
  match r with
  | Hit _ found => truthy found = true
  | Miss _ found _ _ => truthy found = false
  end.

Definition sound_failure (f : Failure) : Prop :=
  match f with
  | GetFailed _ _ => True
  | FetchFailed _ found _ | SetFailed _ found _ _ _ => truthy found = false
  end.

(** The cursors of consecutive iterations: each iteration resolves the
    truthy cursor the one before left, from [c] on; [c'] is the cursor after
    the last. *)
Fixpoint linked (c : JsVal) (rs : list Resolution) (c' : JsVal) : Prop :=
  match rs with
  | [] => c = c'
  | r :: rs' => key_of r = c /\ truthy c = true /\ linked (prev_of r) rs' c'
  end.

End Runs.

(** The result a call ended with, when it failed. *)
Definition failed_with (e : Event) : option Err :=
  match e with
  | CacheGet _ _ _ (Failed err) | ChainGet _ _ (Failed err)
  | CacheSet _ _ _ _ _ (Failed err) => Some err
  | _ => None
  end.

Definition is_lookup (e : Event) : bool :=
  match e with CacheGet _ _ _ _ => true | _ => false end.

Definition is_fetch (e : Event) : bool :=
  match e with ChainGet _ _ _ => true | _ => false end.


(** ** The swap output scanner ([scan/swap_scanner.js]) *)

Module SwapScanner.

(** [scanner.emit(event, payload)]: one call to the emitter.  Whether the
    call returns depends on the listeners the consumer attached; see
    [Emitter] below. *)
Record Notification : Type := emit { event : JsVal; payload : JsVal }.

(** The scanner closes over the arguments it was made with. *)
Record Scanner : Type := mkScanner { cache : JsVal; network : JsVal }.

(** [module.exports = ({cache, network}) => ...]: throws, or returns the
    emitter with its listeners subscribed. *)
Definition swapScanner (cache network : JsVal) : string + Scanner :=
  if negb (truthy cache) then inl "ExpectedCacheTypeForScanCaching"
  else if negb (truthy network) then inl "ExpectedNetworkName"
  else inr (mkScanner cache network).

(** [listener.on('error', err => scanner.emit('error', err))] *)
Definition on_error (err : JsVal) : list Notification :=
  [emit (JStr "error") err].

(** The body of [detected.swaps.forEach(swap => { switch (swap.type) ... })]
    for one record. *)
Definition notify (id network swap : JsVal) : Notification :=
  let type := get_field swap "type" in
  if is_str type "claim" then
    emit type (JObj [("id", id);
                     ("network", network);
                     ("index", get_field swap "index");
                     ("outpoint", get_field swap "outpoint");
                     ("preimage", get_field swap "preimage");
                     ("script", get_field swap "script");
                     ("type", type)])
  else if is_str type "funding" then
    emit type (JObj [("id", id);
                     ("network", network);
                     ("index", get_field swap "index");
                     ("invoice", get_field swap "invoice");
                     ("output", get_field swap "output");
                     ("script", get_field swap "script");
                     ("tokens", get_field swap "tokens");
                     ("type", type);
                     ("vout", get_field swap "vout")])
  else if is_str type "refund" then
    emit type (JObj [("id", id);
                     ("network", network);
                     ("index", get_field swap "index");
                     ("outpoint", get_field swap "outpoint");
                     ("script", get_field swap "script");
                     ("type", type)])
  else
    emit (JStr "error") (JArr [JNum 500; JStr "UnknownSwapType"]).

(** A record of the detector: an object, given by its properties. *)
Definition Swap : Type := list (string * JsVal).

(** The callback [(err, detected) => ...] handed to [detectSwaps], [res]
    being [err] or [detected.swaps], against an emitter on which every [emit]
    returns, that is, one with an ['error'] listener attached: the
    notifications it emits, in order.  [Emitter.callback] is the callback
    against any emitter. *)
Definition on_detected (s : Scanner) (id : JsVal) (res : Outcome (list Swap))
  : list Notification :=
  match res with
  | Failed err => [emit (JStr "error") err]
  | Done swaps => map (fun swap => notify id (network s) (JObj swap)) swaps
  end.

Section Detector.

(** Modelled from the spec: the detector ([./detect_swaps]) is not among the
    sources.  "Swap Detector (consumed): detect(cache selector,
    transactionId, network) -> {swaps: [record...]} | failure, where each
    record carries a type tag and the fields" of its variant. *)
Variable detectSwaps : JsVal -> JsVal -> JsVal -> Outcome (list Swap).

(** [listener.on('transaction', id => detectSwaps({cache, id, network}, ...))] *)
Definition on_transaction (s : Scanner) (id : JsVal) : list Notification :=
  on_detected s id (detectSwaps (cache s) id (network s)).

End Detector.

(** The tag of a record, and a record whose tag is none of the three the
    [switch] knows. *)
Definition tagged (swap : Swap) (tag : string) : Prop :=
  is_str (assoc "type" swap) tag = true.

Definition unrecognized (swap : Swap) : Prop :=
  ~ tagged swap "claim" /\ ~ tagged swap "funding" /\ ~ tagged swap "refund".

(** The notifications of a sequence that went out under one event name. *)
Definition emitted (name : string) (ns : list Notification) : list JsVal :=
  map payload (List.filter (fun n => is_str (event n) name) ns).

End SwapScanner.

(** Records and a scanner for trying the dispatch. *)
Module DemoScan.
Import SwapScanner.

Definition scanner : Scanner := mkScanner (JStr "memory") (JStr "testnet").

Definition funding_record : Swap :=
  [("type", JStr "funding"); ("index", JNum 2); ("invoice", JStr "lnbc1...");
   ("output", JStr "0014..."); ("script", JStr "76a9..."); ("tokens", JNum 5000);
   ("vout", JNum 0)].

Definition claim_record : Swap :=
  [("type", JStr "claim"); ("outpoint", JStr "aa11:0");
   ("preimage", JStr "c0ffee"); ("script", JStr "76a9...")].

Definition payout_record : Swap :=
  [("type", JStr "payout"); ("script", JStr "76a9...")].

(** Detectors that return the same records for every transaction. *)
Definition detect_funding (cache id network : JsVal) : Outcome (list Swap) :=
  Done [funding_record].


Definition detect_mixed (cache id network : JsVal) : Outcome (list Swap) :=
  Done [payout_record; claim_record].

End DemoScan.

(** ** Iterations as steps between states of the world *)

Section Steps.

Variables cache network : JsVal.

(** The cache read of an iteration happened at some instant of it, against
    the store the iteration started with. *)
Definition looked_up (w w' : World) (key found : JsVal) : Prop :=
  exists w1, clock w <= clock w1 <= clock w' /\ store w1 = store w
             /\ found = Cache.read w1 cache (JStr "block") key.

(** The iteration [r] takes the world from [w] to [w']. *)
Definition resolves (w : World) (r : Resolution) (w' : World) : Prop :=
  clock w <= clock w' /\ chain w' = chain w /\ sound r
  /\ trace w' = trace w ++ events_of cache network r
  /\ looked_up w w' (key_of r) (found_of r)
  /\ match r with
     | Hit _ _ => store w' = store w
     | Miss key _ prev txs =>
         chain w network key = Done (prev, txs)
         /\ store w' cache (JStr "block") key
            = Some (mkEntry (Chain.block prev txs)
                      (clock w' + GetPastBlocks.blockExpirationMs))
         /\ forall c t k, ~ (c = cache /\ t = JStr "block" /\ k = key) ->
              store w' c t k = store w c t k
     end.

(** The failing iteration [f] takes the world from [w] to [w']. *)
Definition breaks (w : World) (f : Failure) (w' : World) : Prop :=
  clock w <= clock w' /\ chain w' = chain w /\ sound_failure f
  /\ trace w' = trace w ++ failure_events cache network f
  /\ store w' = store w
  /\ forall found, failure_found f = Some found ->
       looked_up w w' (failure_key f) found.

(** Consecutive completed iterations. *)
Inductive walked : World -> list Resolution -> World -> Prop :=
| walked_nil w : walked w [] w
| walked_cons w r w1 rs w' :
    resolves w r w1 -> walked w1 rs w' -> walked w (r :: rs) w'.

End Steps.

(** The arguments the three guards let through. *)
Definition valid (cache current network : JsVal) : Prop :=
  truthy cache = true /\ truthy current = true /\ truthy network = true.

(** The calls of the iteration a walk ended with, if it ended with a failure. *)
Definition ending_events (cache network : JsVal) (ending : option Failure)
  : list Event :=
  match ending with
  | None => []
  | Some f => failure_events cache network f
  end.


(** ** Counting calls, blocks and records *)

Definition is_write (e : Event) : bool :=
  match e with CacheSet _ _ _ _ _ _ => true | _ => false end.

(** [!!block.is_cached] *)
Definition marked (block : JsVal) : bool :=
  truthy (get_field block "is_cached").

(** The hashes a result was walked through: the starting hash, then the
    previous hash of every block. *)
Definition cursors_of (current : JsVal) (blocks : list JsVal) : list JsVal :=
  current :: map (fun block => get_field block "previous_block_hash") blocks.

(** The block the cached branch of the [getBlock] task builds from a value
    read from the cache. *)
Definition from_cache (found : JsVal) : JsVal :=
  JObj [("is_cached", JBool true);
        ("previous_block_hash", get_field found "previous_block_hash");
        ("transaction_ids", get_field found "transaction_ids")].

(** [swap.type === tag], and a tag that one of the three cases of the
    [switch] takes. *)
Definition has_tag (tag : string) (swap : SwapScanner.Swap) : bool :=
  is_str (assoc "type" swap) tag.

Definition known_tag (swap : SwapScanner.Swap) : bool :=
  has_tag "claim" swap || has_tag "funding" swap || has_tag "refund" swap.

(** A refund record and its detector, for trying the dispatch. *)
Definition refund_record : SwapScanner.Swap :=
  [("type", JStr "refund"); ("index", JNum 7); ("outpoint", JStr "bb22:1");
   ("script", JStr "76a9...")].

Definition detect_refund (cache id network : JsVal)
  : Outcome (list SwapScanner.Swap) :=
  Done [refund_record].

(** After the first walk of [Demo], a walk from [b3] again, asked for
    another network. *)
Module DemoAgain.
Import GetPastBlocks.

Definition walk_again : option (World * Outcome JsVal) :=
  getPastBlocks (JStr "memory") (JStr "b3") (JStr "mainnet") Demo.w2.

Definition w3_again : World :=
  match walk_again with Some (w', _) => w' | None => Demo.w2 end.

Definition page1_again : JsVal :=
  match walk_again with Some (_, Done res) => res | _ => JUndefined end.

(** A cache that holds the number 5 under [b9], and a walk from [b9]. *)
Definition w_tip : World :=
  mkWorld 0
    (fun c t k =>
       if JsVal_eqb c (JStr "memory") && JsVal_eqb t (JStr "block")
          && JsVal_eqb k (JStr "b9")
       then Some (mkEntry (JNum 5) 1000) else None)
    Demo.chain3 [] [].

Definition walk_tip : option (World * Outcome JsVal) :=
  getPastBlocks (JStr "memory") (JStr "b9") (JStr "testnet") w_tip.

Definition w_tip' : World :=
  match walk_tip with Some (w', _) => w' | None => w_tip end.

Definition out_tip : Outcome JsVal :=
  match walk_tip with Some (_, out) => out | None => Done JUndefined end.

End DemoAgain.

(** ** The emitter and its ['error'] listener *)

Module Emitter.
Import SwapScanner.

(** What a handler did to the emitter: the notifications its listeners
    received, in order, and, when an [emit('error', ...)] found no ['error']
    listener, the payload it was called with: Node's emitter then throws
    instead of returning, and the throw leaves the handler. *)
Record Run : Type := mkRun { delivered : list Notification; thrown : option JsVal }.

(** [emit] throws exactly when the event is ['error'] and no listener is
    attached for it; an event nobody listens for is otherwise dropped without
    harm. *)
Definition throws (listening : bool) (n : Notification) : bool :=
  is_str (event n) "error" && negb listening.

(** [detected.swaps.forEach(swap => { switch (swap.type) ... })] *)
Fixpoint forEach (listening : bool) (id network : JsVal) (swaps : list Swap) : Run :=
  match swaps with
  | [] => mkRun [] None
  | swap :: rest =>
      let n := notify id network (JObj swap) in
      if throws listening n then mkRun [] (Some (payload n))
      else
        let run := forEach listening id network rest in
        mkRun (n :: delivered run) (thrown run)
  end.

(** [(err, detected) => { if (!!err) { return scanner.emit('error', err); }
    return detected.swaps.forEach(...) }] *)
Definition callback (listening : bool) (s : Scanner) (id : JsVal)
    (res : Outcome (list Swap)) : Run :=
  match res with
  | Failed err =>
      let n := emit (JStr "error") err in
      if throws listening n then mkRun [] (Some err) else mkRun [n] None
  | Done swaps => forEach listening id (network s) swaps
  end.

(** The records up to the first one the [switch] sends to [default]. *)
Fixpoint known_prefix (swaps : list Swap) : list Swap :=
  match swaps with
  | [] => []
  | swap :: rest => if known_tag swap then swap :: known_prefix rest else []
  end.

End Emitter.

(** ** The chain of the block source, walked without the cache *)






(** A chain of any height: the hash of a block is a run of [b]s, one longer
    than the hash of the block before; on network ['regtest'] every hash is a
    block of its own, without a previous one. *)
Module DemoTower.
Import GetPastBlocks.

Fixpoint tower (n : nat) : string :=
  match n with
  | O => ""
  | S n' => String.append "b" (tower n')
  end.

Definition chain_tower (network id : JsVal) : Outcome (JsVal * JsVal) :=
  match id with
  | JStr (String a rest) =>
      if is_str network "regtest" then Done (JUndefined, JArr [])
      else Done (JStr rest, JArr [JStr (String a rest)])
  | _ => Failed (error 404 "UnknownBlock")
  end.

Definition tip : JsVal := JStr (tower 12).

(** An empty cache and a slow but reliable outside. *)
Definition w0 : World :=
  mkWorld 0 Demo.empty_store chain_tower
    [mkTurn 3 None; mkTurn 20 None; mkTurn 4 None] [].

(** A walk from [tip] on ['regtest'], then, over the cache it leaves, a walk
    from [tip] on ['testnet']. *)
Definition walk_regtest : option (World * Outcome JsVal) :=
  getPastBlocks (JStr "memory") tip (JStr "regtest") w0.

Definition w1 : World :=
  match walk_regtest with
  | Some (w', _) => mkWorld (clock w' + 5) (store w') chain_tower [] []
  | None => w0
  end.

Definition walk_testnet : option (World * Outcome JsVal) :=
  getPastBlocks (JStr "memory") tip (JStr "testnet") w1.

Definition w2 : World :=
  match walk_testnet with Some (w', _) => w' | None => w1 end.


End DemoTower.
(** ** Equality of values *)

(** Induction on values, with the hypothesis for every item of an array and
    every property of an object. *)
Lemma JsVal_rect_nested (P : JsVal -> Prop)
  (Hundef : P JUndefined) (Hnull : P JNull)
  (Hbool : forall b, P (JBool b)) (Hnum : forall n, P (JNum n))
  (Hstr : forall s, P (JStr s))
  (Harr : forall xs, Forall P xs -> P (JArr xs))
  (Hobj : forall ps, Forall (fun kv => P (snd kv)) ps -> P (JObj ps)) :
  forall v, P v.
Proof.
  fix go 1. intros [ | | b | n | s | xs | ps ].
  - exact Hundef.
  - exact Hnull.
  - apply Hbool.
  - apply Hnum.
  - apply Hstr.
  - apply Harr. induction xs as [ | x xs IHxs ]; constructor.
    + apply go.
    + exact IHxs.
  - apply Hobj. induction ps as [ | [k x] ps IHps ]; constructor.
    + apply go.
    + exact IHps.
Qed.

Lemma JsVal_eqb_eq (x y : JsVal) : JsVal_eqb x y = true <-> x = y.
Proof.
  revert y. induction x as [ | | a | a | a | xs IH | ps IH ] using JsVal_rect_nested;
    intros [ | | b | b | b | ys | qs ]; simpl; try (split; congruence).
  - rewrite Bool.eqb_true_iff. split; congruence.
  - rewrite Z.eqb_eq. split; congruence.
  - rewrite String.eqb_eq. split; congruence.
  - revert ys. induction IH as [ | x xs Hx _ IHxs ]; intros [ | y ys ];
      try (split; congruence).
    rewrite andb_true_iff, Hx. specialize (IHxs ys).
    split.
    + intros [-> H]. apply IHxs in H. congruence.
    + intros [= -> ->]. split; [ done | ]. by apply IHxs.
  - revert qs. induction IH as [ | [k x] ps Hx _ IHps ]; intros [ | [l y] qs ];
      try (split; congruence).
    simpl in Hx. rewrite !andb_true_iff, Hx, String.eqb_eq. specialize (IHps qs).
    split.
    + intros [[-> ->] H]. apply IHps in H. congruence.
    + intros [= -> -> ->]. split; [ done | ]. by apply IHps.
Qed.

Lemma JsVal_eqb_refl (x : JsVal) : JsVal_eqb x x = true.
Proof. by apply JsVal_eqb_eq. Qed.

#[global] Instance JsVal_eq_dec : EqDecision JsVal.
Proof.
  intros x y. destruct (JsVal_eqb x y) eqn:E.
  - left. by apply JsVal_eqb_eq.
  - right. intros H. apply JsVal_eqb_eq in H. congruence.
Defined.

(** ** The collaborators, call by call *)

Lemma take_turn_spec (w : World) :
  let w1 := snd (take_turn w) in
  clock w <= clock w1 /\ store w1 = store w /\ chain w1 = chain w
  /\ trace w1 = trace w.
Proof.
  unfold take_turn. destruct (turns w) as [ | t ts ]; simpl; repeat split; lia.
Qed.

Lemma getJsonFromCache_spec cache key type w w1 res :
  Cache.getJsonFromCache cache key type w = (w1, res) ->
  trace w1 = trace w ++ [CacheGet cache key type res]
  /\ clock w <= clock w1 /\ store w1 = store w /\ chain w1 = chain w
  /\ forall found, res = Done found -> found = Cache.read w1 cache type key.
Proof.
  unfold Cache.getJsonFromCache. pose proof (take_turn_spec w) as H.
  destruct (take_turn w) as [flt w0]. simpl in H.
  destruct H as (Hc & Hs & Hch & Ht).
  intros [= <- <-]. simpl. rewrite Ht.
  repeat split; try done.
  intros found. destruct flt; [ done | ]. intros [= <-].
  unfold Cache.read. simpl. done.
Qed.

Lemma getBlock_spec network id w w1 res :
  Chain.getBlock network id w = (w1, res) ->
  trace w1 = trace w ++ [ChainGet network id res]
  /\ clock w <= clock w1 /\ store w1 = store w /\ chain w1 = chain w
  /\ forall b, res = Done b ->
       exists prev txs, b = Chain.block prev txs
                        /\ chain w network id = Done (prev, txs).
Proof.
  unfold Chain.getBlock. pose proof (take_turn_spec w) as H.
  destruct (take_turn w) as [flt w0]. simpl in H.
  destruct H as (Hc & Hs & Hch & Ht).
  intros [= <- <-]. simpl. rewrite Ht.
  repeat split; try done.
  intros b. destruct flt; [ done | ]. rewrite Hch.
  destruct (chain w network id) as [ err | [prev txs] ]; [ done | ].
  intros [= <-]. by exists prev, txs.
Qed.

Lemma setJsonInCache_spec cache key ms type value w w1 res :
  Cache.setJsonInCache cache key ms type value w = (w1, res) ->
  trace w1 = trace w ++ [CacheSet cache key ms type value res]
  /\ clock w <= clock w1 /\ chain w1 = chain w
  /\ match res with
     | Failed _ => store w1 = store w
     | Done _ =>
         store w1 cache type key = Some (mkEntry value (clock w1 + ms))
         /\ forall c t k, ~ (c = cache /\ t = type /\ k = key) ->
              store w1 c t k = store w c t k
     end.
Proof.
  unfold Cache.setJsonInCache. pose proof (take_turn_spec w) as H.
  destruct (take_turn w) as [flt w0]. simpl in H.
  destruct H as (Hc & Hs & Hch & Ht).
  destruct flt as [ err | ]; intros [= <- <-]; simpl; rewrite Ht.
  - repeat split; done.
  - repeat split; try done.
    + by rewrite !JsVal_eqb_refl.
    + intros c t k Hne. rewrite Hs.
      destruct (JsVal_eqb c cache) eqn:E1; [ | done ].
      destruct (JsVal_eqb t type) eqn:E2; [ | done ].
      destruct (JsVal_eqb k key) eqn:E3; [ | done ].
      apply JsVal_eqb_eq in E1, E2, E3. by destruct Hne.
Qed.

(** ** One iteration of the walk *)

Section Iteration.

Import GetPastBlocks.
Variables cache network : JsVal.

Lemma iteratee_cases v w w' out :
  iteratee cache network v w = (w', out) ->
  match out with
  | Done (v', result) =>
      exists r, key_of r = cursor v /\ resolves cache network w r w'
        /\ v' = mkVars (blocks v ++ [block_of r]) (prev_of r)
        /\ result = JObj [("blocks", JArr (blocks v ++ [block_of r]))]
  | Failed err =>
      exists f, failure_key f = cursor v /\ failure_err f = err
        /\ breaks cache network w f w'
  end.
Proof.
  unfold iteratee, auto, bind, resolves, breaks.
  destruct (getCachedBlock cache v w) as [w1 [err | found]] eqn:E1;
    apply getJsonFromCache_spec in E1 as (Ht1 & Hc1 & Hs1 & Hch1 & Hf1).
  { simpl. intros [= <- <-].
    exists (GetFailed (cursor v) err). simpl. repeat split; done. }
  specialize (Hf1 found eq_refl).
  assert (Hlook : forall w2, clock w1 <= clock w2 ->
                    looked_up cache w w2 (cursor v) found).
  { intros w2 Hle. exists w1. repeat split; try done; lia. }
  unfold getBlock. destruct (truthy found) eqn:Htr.
  - simpl. intros [= <- <-].
    exists (Hit (cursor v) found). simpl. repeat split; try done.
    apply Hlook. lia.
  - destruct (Chain.getBlock network (cursor v) w1) as [w2 [err | b]] eqn:E2;
      apply getBlock_spec in E2 as (Ht2 & Hc2 & Hs2 & Hch2 & Hb2).
    { simpl. intros [= <- <-].
      exists (FetchFailed (cursor v) found err). simpl.
      repeat split; try done; try lia; try congruence.
      - rewrite Ht2, Ht1, <- app_assoc. done.
      - intros x [= <-]. by apply Hlook. }
    destruct (Hb2 b eq_refl) as (prev & txs & -> & Hchain).
    cbv beta iota. unfold setCachedBlock, bind.
    change (truthy (get_field (Chain.block prev txs) "is_cached")) with false.
    change (get_field (Chain.block prev txs) "previous_block_hash") with prev.
    change (get_field (Chain.block prev txs) "transaction_ids") with txs.
    cbv beta iota.
    destruct (Cache.setJsonInCache cache (cursor v) blockExpirationMs (JStr "block")
                (JObj [("previous_block_hash", prev); ("transaction_ids", txs)]) w2)
      as [w3 [err | u]] eqn:E3;
      apply setJsonInCache_spec in E3 as (Ht3 & Hc3 & Hch3 & Hs3).
    { simpl. intros [= <- <-].
      exists (SetFailed (cursor v) found prev txs err). simpl.
      repeat split; try done; try lia; try congruence.
      - rewrite Ht3, Ht2, Ht1, <- !app_assoc. done.
      - intros x [= <-]. apply Hlook. lia. }
    simpl. intros [= <- <-].
    exists (Miss (cursor v) found prev txs). simpl.
    destruct Hs3 as [Hs3 Hs3']. destruct u.
    repeat split; try done; try lia; try congruence.
    + rewrite Ht3, Ht2, Ht1, <- !app_assoc. done.
    + apply Hlook. lia.
    + intros c t k Hne. rewrite Hs3' by done. congruence.
Qed.

End Iteration.

(** ** The loop *)

Section Loop.

Import GetPastBlocks.
Variables cache network : JsVal.


(** A run of the loop, iteration by iteration: the iterations [rs] that
    completed, the cursor [c'] they left and the world [wl] they reached. *)
Lemma asyncWhilst_run fuel v last w w' out :
  asyncWhilst cache network fuel v last w = Some (w', out) ->
  exists rs c' wl,
    linked (cursor v) rs c' /\ walked cache network w rs wl
    /\ (length (blocks v) + length rs
        <= Nat.max (length (blocks v)) fetchBlocksCount)%nat
    /\ match out with
       | Done res =>
           w' = wl
           /\ test (mkVars (blocks v ++ map block_of rs) c') = false
           /\ res = match rs with
                    | [] => last
                    | _ => JObj [("blocks", JArr (blocks v ++ map block_of rs))]
                    end
       | Failed err =>
           exists f, failure_key f = c' /\ failure_err f = err
             /\ breaks cache network wl f w'
             /\ test (mkVars (blocks v ++ map block_of rs) c') = true
       end.
Proof.
  revert v last w. induction fuel as [ | fuel IH ]; intros v last w; simpl.
  - destruct (test v) eqn:Ht; [ done | ]. intros [= <- <-].
    exists [], (cursor v), w. simpl. rewrite !app_nil_r.
    destruct v; repeat split; try done; try lia. constructor.
  - destruct (test v) eqn:Ht.
    2:{ intros [= <- <-]. exists [], (cursor v), w. simpl. rewrite !app_nil_r.
        destruct v; repeat split; try done; try lia. constructor. }
    destruct (iteratee cache network v w) as [w1 [err | [v' result]]] eqn:Hit;
      apply iteratee_cases in Hit.
    + intros [= <- <-]. destruct Hit as (f & Hk & He & Hb).
      exists [], (cursor v), w. simpl. rewrite app_nil_r.
      repeat split; try done; try lia; [ constructor | ].
      exists f. destruct v. simpl in *. do 3 (split; [ done | ]). done.
    + destruct Hit as (r & Hk & Hr & -> & ->).
      intros Hrun. apply IH in Hrun as (rs & c' & wl & Hl & Hw & Hlen & Hout).
      simpl in Hl, Hlen, Hout. rewrite length_app in Hlen. simpl in Hlen.
      assert (Hlt : (length (blocks v) < fetchBlocksCount)%nat).
      { unfold test in Ht. apply andb_true_iff in Ht as [Ht _].
        by apply Nat.ltb_lt in Ht. }
      assert (Htc : truthy (cursor v) = true).
      { unfold test in Ht. by apply andb_true_iff in Ht as [_ Ht]. }
      exists (r :: rs), c', wl. simpl.
      rewrite <- !app_assoc in Hout. simpl in Hout.
      repeat split; try done; try lia.
      * by econstructor.
      * destruct out as [err | res]; [ done | ].
        destruct Hout as (-> & ? & Hres). repeat split; try done.
        rewrite Hres. by destruct rs.
Qed.

End Loop.

(** ** What consecutive iterations do to the world *)

Section Walked.

Variables cache network : JsVal.

Lemma walked_sound w rs w' :
  walked cache network w rs w' -> Forall sound rs.
Proof.
  induction 1 as [ | w r w1 rs w' Hr _ IH ]; constructor; [ | done ].
  by destruct Hr as (_ & _ & Hs & _).
Qed.

Lemma walked_clock w rs w' :
  walked cache network w rs w' -> clock w <= clock w'.
Proof.
  induction 1 as [ | w r w1 rs w' Hr _ IH ]; [ lia | ].
  destruct Hr as (Hc & _). lia.
Qed.

Lemma walked_chain w rs w' :
  walked cache network w rs w' -> chain w' = chain w.
Proof.
  induction 1 as [ | w r w1 rs w' Hr _ IH ]; [ done | ].
  destruct Hr as (_ & Hch & _). congruence.
Qed.

Lemma walked_trace w rs w' :
  walked cache network w rs w' ->
  trace w' = trace w ++ flat_map (events_of cache network) rs.
Proof.
  induction 1 as [ | w r w1 rs w' Hr _ IH ]; simpl.
  - by rewrite app_nil_r.
  - destruct Hr as (_ & _ & _ & Ht & _). rewrite IH, Ht, <- app_assoc. done.
Qed.

End Walked.

Lemma calls_app (w w' : World) (evs : list Event) :
  trace w' = trace w ++ evs -> calls w w' = evs.
Proof. unfold calls. intros ->. by rewrite drop_app_length. Qed.

(** ** The whole call *)

Section Walk.

Import GetPastBlocks.


(** A call either stops at a guard, before any call to a collaborator, or
    runs the loop: the iterations [rs] complete one after the other and the
    loop ends on its test or on the failure of the next iteration. *)
Lemma getPastBlocks_cases cache current network w w' out :
  getPastBlocks cache current network w = Some (w', out) ->
  (~ valid cache current network /\ w' = w
   /\ exists message, out = Failed (error 400 message))
  \/ (valid cache current network
      /\ exists rs c' wl,
           linked current rs c' /\ walked cache network w rs wl
           /\ (length rs <= fetchBlocksCount)%nat
           /\ match out with
              | Done res =>
                  w' = wl /\ rs <> []
                  /\ (length rs = fetchBlocksCount \/ truthy c' = false)
                  /\ res = JObj [("blocks", JArr (map block_of rs))]
              | Failed err =>
                  exists f, failure_key f = c' /\ failure_err f = err
                    /\ breaks cache network wl f w'
                    /\ (length rs < fetchBlocksCount)%nat
                    /\ truthy c' = true
              end).
Proof.
  unfold getPastBlocks, valid.
  destruct (truthy cache) eqn:Hc; cbn [negb].
  2:{ intros [= <- <-]. left. split; [ by intros [? _] | ]. by eauto. }
  destruct (truthy current) eqn:Hcur; cbn [negb].
  2:{ intros [= <- <-]. left. split; [ by intros (_ & ? & _) | ]. by eauto. }
  destruct (truthy network) eqn:Hn; cbn [negb].
  2:{ intros [= <- <-]. left. split; [ by intros (_ & _ & ?) | ]. by eauto. }
  intros Hrun. right. split; [ done | ].
  apply asyncWhilst_run in Hrun as (rs & c' & wl & Hl & Hw & Hlen & Hout).
  simpl in Hl, Hlen, Hout. exists rs, c', wl.
  do 3 (split; [ done || lia | ]).
  unfold test in Hout. simpl in Hout. rewrite length_map in Hout.
  destruct out as [err | res].
  - destruct Hout as (f & Hk & He & Hb & Ht). exists f.
    apply andb_true_iff in Ht as [Ht1 Ht2]. apply Nat.ltb_lt in Ht1.
    do 3 (split; [ done | ]). done.
  - destruct Hout as (-> & Ht & ->). split; [ done | ].
    destruct rs as [ | r rs ].
    { simpl in Hl. subst c'. simpl in Ht. congruence. }
    split; [ done | ]. split; [ | done ].
    apply andb_false_iff in Ht as [Ht | Ht]; [ left | by right ].
    apply Nat.ltb_ge in Ht. unfold fetchBlocksCount in *. lia.
Qed.

Lemma getPastBlocks_calls cache current network w w' out :
  getPastBlocks cache current network w = Some (w', out) ->
  exists rs ending,
    calls w w' = flat_map (events_of cache network) rs
                 ++ ending_events cache network ending
    /\ Forall sound rs
    /\ match ending with
       | None => forall err, out = Failed err -> ~ valid cache current network
       | Some f => sound_failure f /\ out = Failed (failure_err f)
       end.
Proof.
  intros Hrun. apply getPastBlocks_cases in Hrun as [(Hinv & -> & _) | (_ & Hrun)].
  { exists [], None. simpl. split; [ | done ].
    apply calls_app. by rewrite app_nil_r. }
  destruct Hrun as (rs & c' & wl & _ & Hw & _ & Hout).
  pose proof (walked_trace _ _ _ _ _ Hw) as Ht.
  pose proof (walked_sound _ _ _ _ _ Hw) as Hs.
  destruct out as [err | res].
  - destruct Hout as (f & _ & <- & Hb & _). exists rs, (Some f). simpl.
    destruct Hb as (_ & _ & Hsf & Htf & _).
    split; [ | done ]. apply calls_app. by rewrite Htf, Ht, <- app_assoc.
  - destruct Hout as (-> & _). exists rs, None. simpl.
    split; [ | done ]. apply calls_app. by rewrite Ht, app_nil_r.
Qed.

End Walk.

(** An event of a sequence made of segments lies in one of the segments or in
    what follows them. *)
Lemma in_segments {A B} (f : A -> list B) (rs : list A) (rest pre post : list B)
    (ev : B) :
  flat_map f rs ++ rest = pre ++ ev :: post ->
  (exists rs1 r rs2 a b,
      rs = rs1 ++ r :: rs2 /\ f r = a ++ ev :: b
      /\ pre = flat_map f rs1 ++ a /\ post = b ++ flat_map f rs2 ++ rest)
  \/ (exists a b, rest = a ++ ev :: b /\ pre = flat_map f rs ++ a /\ post = b).
Proof.
  revert pre. induction rs as [ | r rs IH ]; intros pre; simpl.
  - intros ->. right. by exists pre, post.
  - rewrite <- app_assoc. intros H.
    apply app_eq_app in H as (l & [[H1 H2] | [H1 H2]]).
    + destruct l as [ | x l ].
      * rewrite app_nil_r in H1. simpl in H2. symmetry in H2.
        change (ev :: post) with ([] ++ ev :: post) in H2.
        apply IH in H2 as [(rs1 & r' & rs2 & a & b & -> & Hf & Ha & ->) | (a & b & -> & Ha & ->)].
        -- left. exists (r :: rs1), r', rs2, a, b. simpl.
           repeat split; try done. rewrite <- app_assoc, <- Ha, app_nil_r. done.
        -- right. exists a, b. repeat split; try done.
           rewrite <- app_assoc, <- Ha, app_nil_r. done.
      * injection H2 as <- ->. left. exists [], r, rs, pre, l. by simpl.
    + subst pre.
      apply IH in H2 as [(rs1 & r' & rs2 & a & b & -> & Hf & -> & ->) | (a & b & -> & -> & ->)].
      -- left. exists (r :: rs1), r', rs2, a, b. simpl.
         repeat split; try done. by rewrite <- app_assoc.
      -- right. exists a, b. repeat split; try done. by rewrite <- app_assoc.
Qed.

(** ** Linked cursors *)

Lemma linked_next c rs c' i r r' :
  linked c rs c' -> rs !! i = Some r -> rs !! S i = Some r' ->
  key_of r' = prev_of r /\ truthy (prev_of r) = true.
Proof.
  revert c i. induction rs as [ | r0 rs IH ]; intros c i Hl Hi Hi'; [ done | ].
  destruct Hl as (_ & _ & Hl). destruct i as [ | i ].
  - injection Hi as ->. destruct rs as [ | r1 rs ]; [ done | ].
    injection Hi' as ->. by destruct Hl as (? & ? & _).
  - by apply (IH (prev_of r0) i).
Qed.

Lemma linked_first c rs c' r :
  linked c rs c' -> rs !! 0%nat = Some r -> key_of r = c /\ truthy c = true.
Proof.
  destruct rs as [ | r0 rs ]; [ done | ]. intros (? & ? & _) [= ->]. done.
Qed.

Lemma linked_last c rs c' r :
  linked c rs c' -> last rs = Some r -> c' = prev_of r.
Proof.
  revert c. induction rs as [ | r0 rs IH ]; intros c Hl Hr; [ done | ].
  destruct Hl as (_ & _ & Hl). destruct rs as [ | r1 rs ].
  - injection Hr as ->. done.
  - by apply (IH (prev_of r0)).
Qed.

Lemma lookups_of_resolutions cache network rs :
  length (List.filter is_lookup (flat_map (events_of cache network) rs)) = length rs.
Proof.
  induction rs as [ | [key found | key found prev txs] rs IH ]; simpl; congruence.
Qed.

Lemma fetches_of_resolutions cache network rs :
  (length (List.filter is_fetch (flat_map (events_of cache network) rs)) <= length rs)%nat.
Proof.
  induction rs as [ | [key found | key found prev txs] rs IH ]; simpl; lia.
Qed.

(** ** Where failures sit in the calls of a walk *)

Lemma events_of_succeed cache network r a ev b :
  events_of cache network r = a ++ ev :: b -> failed_with ev = None.
Proof.
  destruct r as [key found | key found prev txs]; simpl;
    destruct a as [ | ? [ | ? [ | ? a ] ] ]; intros [= ]; subst; try done;
    by destruct a.
Qed.

Lemma failure_events_last cache network f a ev b err :
  failure_events cache network f = a ++ ev :: b ->
  failed_with ev = Some err -> b = [] /\ err = failure_err f.
Proof.
  destruct f as [key e | key found e | key found prev txs e]; simpl;
    destruct a as [ | ? [ | ? [ | ? a ] ] ]; intros [= ]; subst; simpl;
    try done; try (by intros [= ->]); by destruct a.
Qed.

Lemma failure_events_end cache network f :
  exists a ev, failure_events cache network f = a ++ [ev]
               /\ failed_with ev = Some (failure_err f).
Proof.
  destruct f as [key e | key found e | key found prev txs e]; simpl.
  - by exists [], (lookup_event cache key (Failed e)).
  - by exists [lookup_event cache key (Done found)], (ChainGet network key (Failed e)).
  - by exists [lookup_event cache key (Done found);
               ChainGet network key (Done (Chain.block prev txs))],
              (write_event cache key prev txs (Failed e)).
Qed.

(** ** The calls around a call *)

(** What follows a completed iteration starts with the next cache lookup. *)
Lemma next_segment_starts cache network rs ending :
  flat_map (events_of cache network) rs ++ ending_events cache network ending = []
  \/ exists key res rest,
       flat_map (events_of cache network) rs ++ ending_events cache network ending
       = CacheGet cache key (JStr "block") res :: rest.
Proof.
  destruct rs as [ | [key found | key found prev txs] rs ]; simpl.
  - destruct ending as [ [key e | key found e | key found prev txs e] | ]; simpl;
      [ right | right | right | by left ]; by eexists _, _, _.
  - right. by eexists _, _, _.
  - right. by eexists _, _, _.
Qed.

(** Taking apart a segment of at most three calls around one of them. *)
Ltac around a H :=
  destruct a as [ | ? [ | ? [ | ? a ] ] ]; simpl in H;
  try (destruct a; simpl in H); try discriminate H;
  simplify_eq H; intros; simplify_eq.

(** ** What a walk leaves in the cache, and what a walk finds there *)

Section CacheContents.

Import GetPastBlocks.
Variables cache network : JsVal.

(** Reading an entry before it expires gives its value. *)
Lemma read_fresh w key en :
  store w cache (JStr "block") key = Some en -> clock w < expires en ->
  Cache.read w cache (JStr "block") key = value en.
Proof.
  unfold Cache.read. intros -> Hlt.
  destruct (clock w <? expires en) eqn:E; [ done | ].
  apply Z.ltb_ge in E. lia.
Qed.

(** An entry holding the block of [key], once written, is still there after
    further iterations: untouched, or written again with a later expiry; the
    expiry is never further away than the TTL. *)
Lemma walked_keeps w rs w' key prev txs (deadline : Z) :
  walked cache network w rs w' ->
  chain w network key = Done (prev, txs) ->
  deadline <= clock w + blockExpirationMs ->
  (exists en, store w cache (JStr "block") key = Some en
              /\ value en = Chain.block prev txs
              /\ deadline <= expires en <= clock w + blockExpirationMs) ->
  exists en, store w' cache (JStr "block") key = Some en
             /\ value en = Chain.block prev txs
             /\ deadline <= expires en <= clock w' + blockExpirationMs.
Proof.
  induction 1 as [ | w r w1 rs w' Hr _ IH ]; intros Hch Hd Hen; [ done | ].
  destruct Hr as (Hc & Hch1 & _ & _ & _ & Hst).
  apply IH; [ congruence | lia | ].
  destruct r as [k found | k found p t].
  - rewrite Hst. destruct Hen as (en & ? & ? & ?). exists en.
    repeat split; try done; lia.
  - destruct Hst as (Hchk & Hnew & Hframe).
    destruct (decide (k = key)) as [-> | Hne].
    + rewrite Hch in Hchk. injection Hchk as <- <-.
      eexists. split; [ exact Hnew | ]. simpl. split; [ done | lia ].
    + rewrite Hframe; [ | intros (_ & _ & ?); congruence ].
      destruct Hen as (en & ? & ? & ?). exists en.
      repeat split; try done; lia.
Qed.

(** The block a completed iteration fetched is in the cache when the
    iterations end, under its hash, with the value the block source gave and
    an expiry one TTL after some instant of the walk. *)
Lemma walked_written w rs w' key found prev txs :
  walked cache network w rs w' ->
  In (Miss key found prev txs) rs ->
  chain w network key = Done (prev, txs)
  /\ exists en, store w' cache (JStr "block") key = Some en
                /\ value en = Chain.block prev txs
                /\ clock w + blockExpirationMs <= expires en
                   <= clock w' + blockExpirationMs.
Proof.
  induction 1 as [ | w r w1 rs w' Hr Hw IH ]; intros Hin; [ done | ].
  destruct Hin as [-> | Hin].
  - destruct Hr as (Hc & Hch1 & _ & _ & _ & Hchk & Hnew & _).
    split; [ done | ].
    apply (walked_keeps w1 rs w' key prev txs); [ done | congruence | lia | ].
    eexists. split; [ exact Hnew | ]. simpl. split; [ done | lia ].
  - destruct Hr as (Hc & Hch1 & _).
    destruct (IH Hin) as (Hchk & en & Hst & Hv & He).
    split; [ congruence | ]. exists en. repeat split; try done; lia.
Qed.

(** While an entry with a truthy value has not expired, iterations leave it
    alone, and those that resolve its key find it. *)
Lemma walked_reuse w rs w' key en :
  walked cache network w rs w' ->
  store w cache (JStr "block") key = Some en ->
  truthy (value en) = true -> clock w' < expires en ->
  store w' cache (JStr "block") key = Some en
  /\ Forall (fun r => key_of r = key -> r = Hit key (value en)) rs.
Proof.
  induction 1 as [ | w r w1 rs w' Hr Hw IH ]; intros Hst Htr Hlt; [ done | ].
  pose proof (walked_clock _ _ _ _ _ Hw) as Hc1.
  destruct Hr as (Hc & _ & Hs & _ & (wx & Hcx & Hsx & Hfound) & Hstore).
  assert (Hkey : key_of r = key -> r = Hit key (value en)).
  { intros Hk. rewrite Hk in Hfound.
    rewrite read_fresh with (en := en) in Hfound; [ | by rewrite Hsx | lia ].
    destruct r as [k found | k found p t]; simpl in *; congruence. }
  assert (Hst1 : store w1 cache (JStr "block") key = Some en).
  { destruct r as [k found | k found p t].
    - by rewrite Hstore.
    - destruct Hstore as (_ & _ & Hframe).
      rewrite Hframe; [ done | ]. intros (_ & _ & <-).
      by specialize (Hkey eq_refl). }
  destruct (IH Hst1 Htr Hlt) as [Hst' Hall].
  split; [ done | ]. by constructor.
Qed.

(** Under the same conditions an iteration that fails on that key fails at
    the cache read. *)
Lemma breaks_reuse w f w' key en :
  breaks cache network w f w' ->
  store w cache (JStr "block") key = Some en ->
  truthy (value en) = true -> clock w' < expires en ->
  failure_key f = key -> failure_found f = None.
Proof.
  intros (Hc & _ & Hs & _ & _ & Hlook) Hst Htr Hlt Hk.
  destruct (failure_found f) as [ found | ] eqn:Hf; [ | done ].
  destruct (Hlook found eq_refl) as (wx & Hcx & Hsx & Hfound).
  rewrite Hk in Hfound.
  rewrite read_fresh with (en := en) in Hfound; [ | by rewrite Hsx | lia ].
  destruct f as [k e | k x e | k x p t e]; simpl in *; congruence.
Qed.

End CacheContents.

(** ** Two walks over one cache *)

Section TwoWalks.

Import GetPastBlocks.

(** A successful cache write of a walk is the write of a completed
    iteration. *)
Lemma written_by_miss cache network rs ending c key ms t v :
  In (CacheSet c key ms t v (Done tt))
     (flat_map (events_of cache network) rs ++ ending_events cache network ending) ->
  exists found prev txs,
    In (Miss key found prev txs) rs /\ v = Chain.block prev txs.
Proof.
  intros [Hin | Hin]%in_app_or.
  - apply in_flat_map in Hin as (r & Hr & Hin).
    destruct r as [k found | k found prev txs]; simpl in Hin.
    + destruct Hin as [ | [] ]; done.
    + destruct Hin as [ | [ | [ H | [] ] ] ]; try done.
      injection H as <- <- <- <- <-. by exists found, prev, txs.
  - destruct ending as [ [k e | k found e | k found prev txs e] | ]; simpl in Hin;
      [ | | | done ].
    + destruct Hin as [ | [] ]; done.
    + destruct Hin as [ | [ | [] ] ]; done.
    + destruct Hin as [ | [ | [ | [] ] ] ]; done.
Qed.

(** A walk that ends before an entry with a truthy value expires never asks
    the block source for the key of the entry, and reads the entry whenever
    it looks the key up. *)
Lemma walk_reuses_entry cache current network w w' out key en :
  getPastBlocks cache current network w = Some (w', out) ->
  store w cache (JStr "block") key = Some en ->
  truthy (value en) = true -> clock w' < expires en ->
  (forall n r, ~ In (ChainGet n key r) (calls w w'))
  /\ (forall c t r, In (CacheGet c key t r) (calls w w') ->
        r = Done (value en) \/ exists err, r = Failed err).
Proof.
  intros Hrun Hst Htr Hlt.
  apply getPastBlocks_cases in Hrun as [(_ & -> & _) | (_ & Hrun)].
  { unfold calls. rewrite drop_all. split; [ by intros n r [] | by intros c t r [] ]. }
  destruct Hrun as (rs & c' & wl & _ & Hw & _ & Hout).
  assert (Hend : exists ending,
             calls w w' = flat_map (events_of cache network) rs
                          ++ ending_events cache network ending
             /\ clock wl <= clock w'
             /\ match ending with
                | None => True
                | Some f => breaks cache network wl f w'
                end).
  { pose proof (walked_trace _ _ _ _ _ Hw) as Ht.
    destruct out as [err | res].
    - destruct Hout as (f & _ & _ & Hb & _). exists (Some f). simpl.
      split; [ | split; [ by destruct Hb | done ] ].
      destruct Hb as (_ & _ & _ & Htf & _).
      apply calls_app. by rewrite Htf, Ht, <- app_assoc.
    - destruct Hout as (-> & _). exists None. simpl.
      split; [ | split; [ lia | done ] ].
      apply calls_app. by rewrite Ht, app_nil_r. }
  destruct Hend as (ending & -> & Hcl & Hend).
  destruct (walked_reuse _ _ _ _ _ key en Hw Hst Htr ltac:(lia)) as [Hstl Hall].
  rewrite Forall_forall in Hall.
  assert (Hf : forall f, ending = Some f -> failure_key f = key ->
                 failure_found f = None).
  { intros f -> Hk. by apply (breaks_reuse cache network wl f w' key en). }
  split.
  - intros n r [Hin | Hin]%in_app_or.
    + apply in_flat_map in Hin as (s & Hs & Hin).
      apply list_elem_of_In in Hs. specialize (Hall s Hs).
      destruct s as [k found | k found prev txs]; simpl in Hin, Hall.
      * destruct Hin as [ | [] ]; done.
      * destruct Hin as [ | [ H | [ | [] ] ] ]; try done.
        injection H as _ -> _. by specialize (Hall eq_refl).
    + destruct ending as [ f | ]; [ | done ].
      specialize (Hf f eq_refl).
      destruct f as [k e | k found e | k found prev txs e]; simpl in Hin, Hf.
      * destruct Hin as [ | [] ]; done.
      * destruct Hin as [ | [ H | [] ] ]; try done.
        injection H as _ -> _. by specialize (Hf eq_refl).
      * destruct Hin as [ | [ H | [ | [] ] ] ]; try done.
        injection H as _ -> _. by specialize (Hf eq_refl).
  - intros c t r [Hin | Hin]%in_app_or.
    + apply in_flat_map in Hin as (s & Hs & Hin).
      apply list_elem_of_In in Hs. specialize (Hall s Hs).
      destruct s as [k found | k found prev txs]; simpl in Hin, Hall.
      * destruct Hin as [ H | [] ]. injection H as _ -> _ <-.
        specialize (Hall eq_refl). injection Hall as ->. by left.
      * destruct Hin as [ H | [ | [ | [] ] ] ]; try done.
        injection H as _ -> _ _. by specialize (Hall eq_refl).
    + destruct ending as [ f | ]; [ | done ].
      specialize (Hf f eq_refl).
      destruct f as [k e | k found e | k found prev txs e]; simpl in Hin, Hf.
      * destruct Hin as [ H | [] ]. injection H as _ _ _ <-. right. by exists e.
      * destruct Hin as [ H | [ | [] ] ]; try done.
        injection H as _ -> _ _. by specialize (Hf eq_refl).
      * destruct Hin as [ H | [ | [ | [] ] ] ]; try done.
        injection H as _ -> _ _. by specialize (Hf eq_refl).
Qed.

(** The state of the cache after a walk that wrote [key]. *)
Lemma walk_populates cache current network w w' out key ms t v :
  getPastBlocks cache current network w = Some (w', out) ->
  In (CacheSet cache key ms t v (Done tt)) (calls w w') ->
  exists en, store w' cache (JStr "block") key = Some en
             /\ value en = v /\ truthy v = true
             /\ clock w + blockExpirationMs <= expires en
                <= clock w' + blockExpirationMs.
Proof.
  intros Hrun Hin.
  apply getPastBlocks_cases in Hrun as [(_ & -> & _) | (_ & Hrun)].
  { unfold calls in Hin. by rewrite drop_all in Hin. }
  destruct Hrun as (rs & c' & wl & _ & Hw & _ & Hout).
  pose proof (walked_trace _ _ _ _ _ Hw) as Ht.
  assert (Hend : exists ending,
             calls w w' = flat_map (events_of cache network) rs
                          ++ ending_events cache network ending
             /\ store w' = store wl /\ clock wl <= clock w').
  { destruct out as [err | res].
    - destruct Hout as (f & _ & _ & Hb & _). exists (Some f). simpl.
      destruct Hb as (? & _ & _ & Htf & Hsf & _). split; [ | done ].
      apply calls_app. by rewrite Htf, Ht, <- app_assoc.
    - destruct Hout as (-> & _). exists None. simpl. split; [ | split; [ done | lia ] ].
      apply calls_app. by rewrite Ht, app_nil_r. }
  destruct Hend as (ending & Hcalls & Hstore & Hclock). rewrite Hcalls in Hin.
  apply written_by_miss in Hin as (found & prev & txs & Hin & ->).
  destruct (walked_written _ _ _ _ _ _ _ _ _ Hw Hin) as (_ & en & Hst & Hv & He).
  exists en. rewrite Hstore. repeat split; try done; lia.
Qed.

End TwoWalks.

(** ** The dispatch of the scanner *)

Lemma is_str_true (v : JsVal) (lit : string) : is_str v lit = true -> v = JStr lit.
Proof.
  destruct v as [ | | b | n | s | xs | ps ]; simpl; try done.
  by intros ->%String.eqb_eq.
Qed.

Section Dispatch.

Import SwapScanner.

Lemma notify_claim id network (swap : Swap) :
  tagged swap "claim" ->
  notify id network (JObj swap)
  = emit (JStr "claim")
      (JObj [("id", id); ("network", network);
             ("index", assoc "index" swap);
             ("outpoint", assoc "outpoint" swap);
             ("preimage", assoc "preimage" swap);
             ("script", assoc "script" swap);
             ("type", JStr "claim")]).
Proof.
  unfold tagged, notify. simpl. intros H. rewrite H. by rewrite (is_str_true _ _ H).
Qed.

Lemma notify_funding id network (swap : Swap) :
  tagged swap "funding" ->
  notify id network (JObj swap)
  = emit (JStr "funding")
      (JObj [("id", id); ("network", network);
             ("index", assoc "index" swap);
             ("invoice", assoc "invoice" swap);
             ("output", assoc "output" swap);
             ("script", assoc "script" swap);
             ("tokens", assoc "tokens" swap);
             ("type", JStr "funding");
             ("vout", assoc "vout" swap)]).
Proof.
  unfold tagged, notify. simpl. intros H. rewrite (is_str_true _ _ H). done.
Qed.

Lemma notify_unrecognized id network swap :
  unrecognized swap ->
  notify id network (JObj swap)
  = emit (JStr "error") (JArr [JNum 500; JStr "UnknownSwapType"]).
Proof.
  unfold unrecognized, tagged, notify. simpl. intros (H1 & H2 & H3).
  destruct (is_str (assoc "type" swap) "claim"); [ done | ].
  destruct (is_str (assoc "type" swap) "funding"); [ done | ].
  by destruct (is_str (assoc "type" swap) "refund").
Qed.

End Dispatch.

(** ** The callback and the ['error'] listener *)

Section Listening.

Import SwapScanner.

Lemma throws_listening n : Emitter.throws true n = false.
Proof. unfold Emitter.throws. by rewrite andb_false_r. Qed.

Lemma throws_unheard n :
  Emitter.throws false n = is_str (event n) "error".
Proof. unfold Emitter.throws. by rewrite andb_true_r. Qed.

Lemma forEach_listening id network swaps :
  Emitter.forEach true id network swaps
  = Emitter.mkRun (map (fun swap => notify id network (JObj swap)) swaps) None.
Proof.
  induction swaps as [ | swap swaps IH ]; [ done | ].
  cbn [Emitter.forEach map]. by rewrite throws_listening, IH.
Qed.

(** With an ['error'] listener attached every [emit] returns: nothing is
    thrown and the listeners receive every notification of the callback. *)
Lemma callback_listening s id res :
  Emitter.callback true s id res = Emitter.mkRun (on_detected s id res) None.
Proof.
  destruct res as [err | swaps]; cbn [Emitter.callback on_detected].
  - by rewrite throws_listening.
  - apply forEach_listening.
Qed.

End Listening.

(** ** A walk against a reliable outside *)

Section Quiet.

Import GetPastBlocks.
Variables cache network : JsVal.







End Quiet.

(** ** A walk over a cache that agrees with the block source *)

Section Agreement.

Variables cache network : JsVal.




End Agreement.

(** ** The whole call over such a cache *)

Section SourceWalk.

Import GetPastBlocks.




End SourceWalk.

(** * The properties of the walker *)

Section WalkerClaims.

Import GetPastBlocks.

(** C5 : input validation.  A call whose cache selector is absent (falsy),
    whose starting hash is absent, or whose network is absent ends with a
    failure of code 400; the three failures carry three different tags, the
    first guard that applies deciding; the world is handed back as it was, so
    neither the cache nor the block source was called. *)
Theorem walker_validates_inputs (cache current network : JsVal) (w : World) :
  (truthy cache = false ->
   getPastBlocks cache current network w
   = Some (w, Failed (JArr [JNum 400; JStr "ExpectedCacheToCheckAgainst"])))
  /\ (truthy cache = true -> truthy current = false ->
      getPastBlocks cache current network w
      = Some (w, Failed (JArr [JNum 400; JStr "ExpectedCurrentBlockHash"])))
  /\ (truthy cache = true -> truthy current = true -> truthy network = false ->
      getPastBlocks cache current network w
      = Some (w, Failed (JArr [JNum 400; JStr "ExpectedNetworkName"])))
  /\ (forall w' out,
        ~ valid cache current network ->
        getPastBlocks cache current network w = Some (w', out) ->
        w' = w /\ calls w w' = []
        /\ exists tag, out = Failed (JArr [JNum 400; JStr tag]))
  /\ "ExpectedCacheToCheckAgainst" <> "ExpectedCurrentBlockHash"
  /\ "ExpectedCacheToCheckAgainst" <> "ExpectedNetworkName"
  /\ "ExpectedCurrentBlockHash" <> "ExpectedNetworkName".
Proof.
  unfold getPastBlocks.
  split; [ by intros -> | ].
  split; [ by intros -> -> | ].
  split; [ by intros -> -> -> | ].
  split; [ | done ].
  intros w' out Hinv Hrun.
  apply getPastBlocks_cases in Hrun as [(_ & -> & tag & ->) | (Hv & _)]; [ | done ].
  repeat split; [ | by exists tag ].
  apply calls_app. by rewrite app_nil_r.
Qed.

Lemma walker_validates_inputs_witness :
  getPastBlocks JUndefined (JStr "b3") (JStr "testnet") Demo.w0
  = Some (Demo.w0, Failed (JArr [JNum 400; JStr "ExpectedCacheToCheckAgainst"]))
  /\ getPastBlocks (JStr "memory") JUndefined (JStr "testnet") Demo.w0
     = Some (Demo.w0, Failed (JArr [JNum 400; JStr "ExpectedCurrentBlockHash"]))
  /\ getPastBlocks (JStr "memory") (JStr "b3") JUndefined Demo.w0
     = Some (Demo.w0, Failed (JArr [JNum 400; JStr "ExpectedNetworkName"])).
Proof.
  split; [ | split ].
  - apply (walker_validates_inputs JUndefined (JStr "b3") (JStr "testnet") Demo.w0).
    reflexivity.
  - apply (walker_validates_inputs (JStr "memory") JUndefined (JStr "testnet") Demo.w0);
      reflexivity.
  - apply (walker_validates_inputs (JStr "memory") (JStr "b3") JUndefined Demo.w0);
      reflexivity.
Defined.




(** C3 : chaining.  The blocks of a successful result are those of the
    completed iterations, in order; the first iteration looked up the starting
    hash; and the previous hash of the block at index [i] is the key with
    which the iteration producing the block at index [i+1] looked the block up
    in the cache and, on a miss, fetched it from the block source. *)
Theorem walk_chaining (cache current network : JsVal) (w w' : World) (res : JsVal) :
  getPastBlocks cache current network w = Some (w', Done res) ->
  exists rs,
    res = JObj [("blocks", JArr (map block_of rs))]
    /\ calls w w' = flat_map (events_of cache network) rs
    /\ (exists r0, rs !! 0%nat = Some r0 /\ key_of r0 = current)
    /\ forall i b r,
         map block_of rs !! i = Some b -> rs !! S i = Some r ->
         get_field b "previous_block_hash" = key_of r.
Proof.
  intros Hrun.
  apply getPastBlocks_cases in Hrun as [(_ & _ & ? & ?) | (_ & Hrun)]; [ done | ].
  destruct Hrun as (rs & c' & wl & Hl & Hw & Hlen & -> & Hne & Hend & ->).
  exists rs. split; [ done | ]. split; [ | split ].
  - apply calls_app. by apply walked_trace.
  - destruct rs as [ | r0 rs ]; [ done | ]. exists r0. split; [ done | ].
    by destruct Hl as (? & _).
  - intros i b r Hb Hr. rewrite list_lookup_fmap in Hb.
    destruct (rs !! i) as [ ri | ] eqn:Hri; [ | done ]. injection Hb as <-.
    by destruct (linked_next _ _ _ _ _ _ Hl Hri Hr) as [-> _].
Qed.

Lemma walk_chaining_witness :
  exists rs,
    calls Demo.w0 Demo.w1 = flat_map (events_of (JStr "memory") (JStr "testnet")) rs.
Proof.
  destruct (walk_chaining (JStr "memory") (JStr "b3") (JStr "testnet")
              Demo.w0 Demo.w1 Demo.page1 ltac:(vm_compute; reflexivity))
    as (rs & _ & Hc & _).
  exists rs. exact Hc.
Defined.

(** C4 : every failure is fatal.  A call to the cache or to the block source
    that fails (a cache read, a block fetch or a cache write, at any
    iteration) is the last call of the walk, and the walk ends with that very
    failure instead of a block sequence.  Conversely a walk over valid
    arguments fails only with the failure of its last call. *)
Theorem walk_failure_is_fatal (cache current network : JsVal) (w w' : World)
    (out : Outcome JsVal) :
  getPastBlocks cache current network w = Some (w', out) ->
  (forall pre ev post err,
      calls w w' = pre ++ ev :: post -> failed_with ev = Some err ->
      post = [] /\ out = Failed err)
  /\ (forall err,
        valid cache current network -> out = Failed err ->
        exists pre ev, calls w w' = pre ++ [ev] /\ failed_with ev = Some err).
Proof.
  intros Hrun.
  apply getPastBlocks_calls in Hrun as (rs & ending & Hcalls & Hs & Hend).
  split.
  - intros pre ev post err Hsplit Hfail. rewrite Hcalls in Hsplit.
    apply in_segments in Hsplit
      as [(rs1 & r & rs2 & a & b & _ & Hev & _) | (a & b & Hev & _ & ->)].
    + apply events_of_succeed in Hev. congruence.
    + destruct ending as [ f | ]; simpl in Hev; [ | by destruct a ].
      destruct (failure_events_last _ _ _ _ _ _ _ Hev Hfail) as [-> ->].
      by destruct Hend as [_ ->].
  - intros err Hv ->. destruct ending as [ f | ]; [ | by destruct (Hend err) ].
    destruct Hend as [_ [= ->]].
    destruct (failure_events_end cache network f) as (a & ev & Hf & Hfail).
    exists (flat_map (events_of cache network) rs ++ a), ev.
    split; [ | done ]. rewrite Hcalls. simpl. by rewrite Hf, app_assoc.
Qed.

(** C10 : what the walker writes into the cache.  Every cache write of a
    walk goes to the selected cache under type ['block'] with the fixed TTL;
    its key is the cursor of the iteration, the one just looked up and missed
    in the cache and just fetched from the block source; its value has the
    two properties [previous_block_hash] and [transaction_ids] of the fetched
    block and no other, in particular no [is_cached]. *)
Theorem cache_write_hygiene (cache current network : JsVal) (w w' : World)
    (out : Outcome JsVal) (pre post : list Event) (c k : JsVal) (ms : Z)
    (t v : JsVal) (r : Outcome unit) :
  getPastBlocks cache current network w = Some (w', out) ->
  calls w w' = pre ++ CacheSet c k ms t v r :: post ->
  c = cache /\ t = JStr "block" /\ ms = 10800000
  /\ keys v = ["previous_block_hash"; "transaction_ids"]
  /\ get_field v "is_cached" = JUndefined
  /\ exists pre' found b,
       pre = pre' ++ [CacheGet cache k (JStr "block") (Done found);
                      ChainGet network k (Done b)]
       /\ truthy found = false
       /\ v = JObj [("previous_block_hash", get_field b "previous_block_hash");
                    ("transaction_ids", get_field b "transaction_ids")].
Proof.
  intros Hrun Hsplit.
  apply getPastBlocks_calls in Hrun as (rs & ending & Hcalls & Hs & Hend).
  rewrite Hcalls in Hsplit.
  apply in_segments in Hsplit
    as [(rs1 & s & rs2 & a & b & -> & Hev & -> & _) | (a & b & Hev & -> & _)].
  - apply Forall_app in Hs as [_ Hs]. apply Forall_cons in Hs as [Hs _].
    destruct s as [key found | key found prev txs]; simpl in Hev, Hs;
      around a Hev.
    repeat split.
    eexists _, _, (Chain.block _ _). split; [ reflexivity | ]. by split.
  - destruct ending as [ [key e | key found e | key found prev txs e] | ];
      simpl in Hev, Hend; [ | | | by destruct a ]; around a Hev.
    repeat split.
    destruct Hend as [Hsf _].
    eexists _, _, (Chain.block _ _). split; [ reflexivity | ]. by split.
Qed.

Lemma walk_failure_is_fatal_witness :
  Demo.out_down = Failed (error 503 "CacheDown").
Proof.
  destruct (walk_failure_is_fatal (JStr "memory") (JStr "b3") (JStr "testnet")
              Demo.w_down Demo.w_down' Demo.out_down ltac:(vm_compute; reflexivity))
    as [H _].
  destruct (H [lookup_event (JStr "memory") (JStr "b3") (Done JUndefined);
               ChainGet (JStr "testnet") (JStr "b3")
                 (Done (Chain.block (JStr "b2") (JArr [JStr "t5"; JStr "t6"])))]
              (write_event (JStr "memory") (JStr "b3") (JStr "b2")
                 (JArr [JStr "t5"; JStr "t6"]) (Failed (error 503 "CacheDown")))
              [] (error 503 "CacheDown")
              ltac:(vm_compute; reflexivity) ltac:(reflexivity))
    as [_ Hout].
  exact Hout.
Defined.

Lemma cache_write_hygiene_witness :
  keys (Chain.block (JStr "b2") (JArr [JStr "t5"; JStr "t6"]))
  = ["previous_block_hash"; "transaction_ids"].
Proof.
  destruct (cache_write_hygiene (JStr "memory") (JStr "b3") (JStr "testnet")
              Demo.w_down Demo.w_down' Demo.out_down
              [lookup_event (JStr "memory") (JStr "b3") (Done JUndefined);
               ChainGet (JStr "testnet") (JStr "b3")
                 (Done (Chain.block (JStr "b2") (JArr [JStr "t5"; JStr "t6"])))]
              [] (JStr "memory") (JStr "b3") 10800000 (JStr "block")
              (Chain.block (JStr "b2") (JArr [JStr "t5"; JStr "t6"]))
              (Failed (error 503 "CacheDown"))
              ltac:(vm_compute; reflexivity) ltac:(vm_compute; reflexivity))
    as (_ & _ & _ & Hkeys & _).
  exact Hkeys.
Defined.

(** C2 : cache first, then the block source, then the cache again.  In every
    walk: a call to the block source comes right after a lookup of the same
    hash in the selected cache that found nothing; a lookup that finds the
    hash is followed by no call for that hash (the walk ends there or goes on
    with the lookup of the next cursor), a lookup that finds nothing is
    followed by the fetch of that hash; and a fetch that succeeds is followed
    by the write of the block under that hash, type ['block'], with the
    three-hour TTL.  After a write that succeeds the cache holds the value
    under the hash with an expiry three hours after an instant of the walk, and
    any later walk over that cache which ends before the expiry never calls
    the block source for the hash and reads the written value whenever it
    looks the hash up. *)
Theorem cache_first_then_populate (cache current network : JsVal) (w w' : World)
    (out : Outcome JsVal) :
  getPastBlocks cache current network w = Some (w', out) ->
  (forall pre n id r post,
      calls w w' = pre ++ ChainGet n id r :: post ->
      n = network
      /\ exists pre' found,
           pre = pre' ++ [CacheGet cache id (JStr "block") (Done found)]
           /\ truthy found = false)
  /\ (forall pre c key t found post,
        calls w w' = pre ++ CacheGet c key t (Done found) :: post ->
        c = cache /\ t = JStr "block"
        /\ if truthy found
           then post = []
                \/ exists key' r' post',
                     post = CacheGet cache key' (JStr "block") r' :: post'
           else exists r' post', post = ChainGet network key r' :: post')
  /\ (forall pre n id b post,
        calls w w' = pre ++ ChainGet n id (Done b) :: post ->
        exists r' post',
          post = CacheSet cache id (1000 * 60 * 60 * 3) (JStr "block")
                   (JObj [("previous_block_hash", get_field b "previous_block_hash");
                          ("transaction_ids", get_field b "transaction_ids")]) r'
                 :: post')
  /\ (forall key ms t v,
        In (CacheSet cache key ms t v (Done tt)) (calls w w') ->
        exists en,
          store w' cache (JStr "block") key = Some en
          /\ value en = v /\ truthy v = true
          /\ clock w + 1000 * 60 * 60 * 3 <= expires en
             <= clock w' + 1000 * 60 * 60 * 3
          /\ forall current2 network2 w2 w3 out2,
               store w2 = store w' ->
               getPastBlocks cache current2 network2 w2 = Some (w3, out2) ->
               clock w3 < expires en ->
               (forall n r, ~ In (ChainGet n key r) (calls w2 w3))
               /\ (forall c' t' r, In (CacheGet c' key t' r) (calls w2 w3) ->
                     r = Done v \/ exists err, r = Failed err)).
Proof.
  intros Hrun.
  pose proof (getPastBlocks_calls _ _ _ _ _ _ Hrun)
    as (rs & ending & Hcalls & Hs & Hend).
  rewrite Hcalls. split; [ | split; [ | split ] ].
  - intros pre n id r post Hsplit.
    apply in_segments in Hsplit
      as [(rs1 & s & rs2 & a & b & -> & Hev & -> & _) | (a & b & Hev & -> & _)].
    + apply Forall_app in Hs as [_ Hs]. apply Forall_cons in Hs as [Hs _].
      destruct s as [key found | key found prev txs]; simpl in Hev, Hs;
        around a Hev.
      split; [ done | ]. by eexists _, _.
    + destruct ending as [ [key e | key found e | key found prev txs e] | ];
        simpl in Hev, Hend; [ | | | by destruct a ]; around a Hev;
        destruct Hend as [Hsf _];
        (split; [ done | ]; by eexists _, _).
  - intros pre c key t found post Hsplit.
    apply in_segments in Hsplit
      as [(rs1 & s & rs2 & a & b & -> & Hev & -> & ->) | (a & b & Hev & -> & ->)].
    + apply Forall_app in Hs as [_ Hs]. apply Forall_cons in Hs as [Hs _].
      destruct s as [k x | k x prev txs]; simpl in Hev, Hs; around a Hev;
        (split; [ done | ]; split; [ done | ]); rewrite Hs.
      * apply (next_segment_starts _ _ rs2 ending).
      * by eexists _, _.
    + destruct ending as [ [k e | k x e | k x prev txs e] | ];
        simpl in Hev, Hend; [ | | | by destruct a ]; around a Hev;
        destruct Hend as [Hsf _];
        (split; [ done | ]; split; [ done | ]); rewrite Hsf; by eexists _, _.
  - intros pre n id b post Hsplit.
    apply in_segments in Hsplit
      as [(rs1 & s & rs2 & a & b' & -> & Hev & -> & ->) | (a & b' & Hev & -> & ->)].
    + destruct s as [k x | k x prev txs]; simpl in Hev; around a Hev.
      by eexists _, _.
    + destruct ending as [ [k e | k x e | k x prev txs e] | ];
        simpl in Hev; [ | | | by destruct a ]; around a Hev.
      by eexists _, _.
  - intros key ms t v Hin. rewrite <- Hcalls in Hin.
    destruct (walk_populates _ _ _ _ _ _ _ _ _ _ Hrun Hin)
      as (en & Hst & <- & Htr & He).
    exists en. do 4 (split; [ done | ]).
    intros current2 network2 w2 w3 out2 Hsame Hrun2 Hlt.
    rewrite <- Hsame in Hst.
    apply (walk_reuses_entry _ _ _ _ _ _ key en Hrun2 Hst Htr Hlt).
Qed.

Lemma cache_first_then_populate_witness :
  exists en,
    store Demo.w1 (JStr "memory") (JStr "block") (JStr "b2") = Some en
    /\ expires en = 10800000
    /\ (Done (Chain.block (JStr "b1") (JArr [JStr "t3"]))
        = Done (Chain.block (JStr "b1") (JArr [JStr "t3"]))
        \/ exists err : Err, Done (Chain.block (JStr "b1") (JArr [JStr "t3"])) = Failed err).
Proof.
  destruct (cache_first_then_populate (JStr "memory") (JStr "b3") (JStr "testnet")
              Demo.w0 Demo.w1 (Done Demo.page1) ltac:(vm_compute; reflexivity))
    as (_ & _ & _ & H).
  destruct (H (JStr "b2") 10800000 (JStr "block")
              (Chain.block (JStr "b1") (JArr [JStr "t3"]))
              ltac:(vm_compute; do 5 right; left; reflexivity))
    as (en & Hst & Hv & _ & _ & Hreuse).
  exists en. split; [ exact Hst | ].
  vm_compute in Hst. injection Hst as <-. split; [ reflexivity | ].
  destruct (Hreuse (JStr "b2") (JStr "testnet") Demo.w2 Demo.w3 (Done Demo.page2)
              eq_refl ltac:(vm_compute; reflexivity) ltac:(vm_compute; reflexivity))
    as [_ Hread].
  apply (Hread (JStr "memory") (JStr "block")).
  vm_compute. left. reflexivity.
Defined.

(** C9 : the shape of the result, evaluated.  Walking from [b2] over a cache
    that holds [b2] and [b1] succeeds with [{blocks}], and both elements,
    rebuilt from the cache, have three properties: [is_cached] (true) besides
    [previous_block_hash] and [transaction_ids].  The same two blocks, when an
    earlier walk fetched them from the block source, had the two documented
    properties only. *)
Theorem cached_blocks_keep_marker :
  getPastBlocks (JStr "memory") (JStr "b2") (JStr "testnet") Demo.w2
  = Some (Demo.w3,
          Done (JObj [("blocks",
                       JArr [JObj [("is_cached", JBool true);
                                   ("previous_block_hash", JStr "b1");
                                   ("transaction_ids", JArr [JStr "t3"])];
                             JObj [("is_cached", JBool true);
                                   ("previous_block_hash", JUndefined);
                                   ("transaction_ids", JArr [JStr "t1"; JStr "t2"])]])]))
  /\ calls Demo.w2 Demo.w3
     = [lookup_event (JStr "memory") (JStr "b2")
          (Done (Chain.block (JStr "b1") (JArr [JStr "t3"])));
        lookup_event (JStr "memory") (JStr "b1")
          (Done (Chain.block JUndefined (JArr [JStr "t1"; JStr "t2"])))]
  /\ Demo.page1
     = JObj [("blocks",
              JArr [JObj [("previous_block_hash", JStr "b2");
                          ("transaction_ids", JArr [JStr "t5"; JStr "t6"])];
                    JObj [("previous_block_hash", JStr "b1");
                          ("transaction_ids", JArr [JStr "t3"])];
                    JObj [("previous_block_hash", JUndefined);
                          ("transaction_ids", JArr [JStr "t1"; JStr "t2"])]])].
Proof. repeat split; vm_compute; reflexivity. Qed.

End WalkerClaims.

(** * The properties of the scanner *)

Section ScannerClaims.

Import SwapScanner.

Variable detectSwaps : JsVal -> JsVal -> JsVal -> Outcome (list Swap).

(** C6, as the code has it : a record of unknown type and the ['error']
    listener.  Take a detector result with one record whose tag is none of
    ['claim'], ['funding'], ['refund'] and one record tagged ['claim'].  When
    an ['error'] listener is attached to the scanner, its listeners receive,
    in the order of the records, exactly one ['error'] notification with
    payload [[500, 'UnknownSwapType']] and exactly one ['claim'] notification
    for the valid record, and nothing is thrown.  When none is attached the
    [emit] of the ['error'] throws and leaves the loop: a claim record before
    the unknown one has had its notification, a claim record after it gets
    none. *)
Theorem unknown_type_does_not_suppress (s : Scanner) (id : JsVal)
    (bad good : Swap) :
  unrecognized bad ->
  tagged good "claim" ->
  event (notify id (network s) (JObj good)) = JStr "claim"
  /\ Emitter.callback true s id (Done [bad; good])
     = Emitter.mkRun
         [emit (JStr "error") (JArr [JNum 500; JStr "UnknownSwapType"]);
          notify id (network s) (JObj good)] None
  /\ Emitter.callback true s id (Done [good; bad])
     = Emitter.mkRun
         [notify id (network s) (JObj good);
          emit (JStr "error") (JArr [JNum 500; JStr "UnknownSwapType"])] None
  /\ Emitter.callback false s id (Done [good; bad])
     = Emitter.mkRun [notify id (network s) (JObj good)]
         (Some (JArr [JNum 500; JStr "UnknownSwapType"]))
  /\ Emitter.callback false s id (Done [bad; good])
     = Emitter.mkRun [] (Some (JArr [JNum 500; JStr "UnknownSwapType"])).
Proof.
  intros Hbad Hgood.
  pose proof (notify_unrecognized id (network s) bad Hbad) as Hb.
  pose proof (notify_claim id (network s) good Hgood) as Hg.
  split; [ by rewrite Hg | ].
  rewrite !callback_listening. cbn [on_detected map]. rewrite Hb.
  do 2 (split; [ done | ]).
  cbn [Emitter.callback Emitter.forEach].
  rewrite !throws_unheard, Hb, Hg. done.
Qed.

(** C7 : funding dispatch.  When the detector returns a single record tagged
    ['funding'], the scanner emits exactly one notification: a ['funding']
    notification whose payload has the nine documented properties, [id] and
    [network] being the transaction id and the network of the scanner, the
    others those of the record; no ['error'] notification goes out. *)
Theorem funding_dispatch (s : Scanner) (id : JsVal) (swap : Swap) :
  detectSwaps (cache s) id (network s) = Done [swap] ->
  tagged swap "funding" ->
  on_transaction detectSwaps s id
  = [emit (JStr "funding")
       (JObj [("id", id);
              ("network", network s);
              ("index", assoc "index" swap);
              ("invoice", assoc "invoice" swap);
              ("output", assoc "output" swap);
              ("script", assoc "script" swap);
              ("tokens", assoc "tokens" swap);
              ("type", JStr "funding");
              ("vout", assoc "vout" swap)])]
  /\ (forall n, In n (on_transaction detectSwaps s id) ->
        Permutation (keys (payload n))
          ["id"; "index"; "invoice"; "network"; "output"; "script"; "tokens";
           "type"; "vout"])
  /\ emitted "error" (on_transaction detectSwaps s id) = [].
Proof.
  intros Hdet Htype. unfold on_transaction. rewrite Hdet. simpl.
  rewrite (notify_funding _ _ swap Htype). split; [ done | ]. split; [ | done ].
  intros n [<- | []]. simpl.
  apply perm_skip. etransitivity; [ apply perm_swap | ].
  apply perm_skip, perm_swap.
Qed.


End ScannerClaims.

Lemma unknown_type_does_not_suppress_witness :
  Emitter.callback true DemoScan.scanner (JStr "tx1")
    (Done [DemoScan.payout_record; DemoScan.claim_record])
  = Emitter.mkRun
      [SwapScanner.emit (JStr "error") (JArr [JNum 500; JStr "UnknownSwapType"]);
       SwapScanner.emit (JStr "claim")
         (JObj [("id", JStr "tx1"); ("network", JStr "testnet");
                ("index", JUndefined); ("outpoint", JStr "aa11:0");
                ("preimage", JStr "c0ffee"); ("script", JStr "76a9...");
                ("type", JStr "claim")])]
      None.
Proof.
  exact (proj1 (proj2
           (unknown_type_does_not_suppress DemoScan.scanner (JStr "tx1")
              DemoScan.payout_record DemoScan.claim_record
              ltac:(repeat split; discriminate) ltac:(reflexivity)))).
Defined.

(** C6, as the specification words it, fails: on a scanner without an
    ['error'] listener, for the unknown record followed by the claim record,
    the listeners receive neither one ['error'] notification nor one ['claim']
    notification. *)
Lemma unknown_type_suppresses_unheard :
  ~ (length (SwapScanner.emitted "error"
               (Emitter.delivered
                  (Emitter.callback false DemoScan.scanner (JStr "tx1")
                     (Done [DemoScan.payout_record; DemoScan.claim_record]))))
     = 1%nat
     /\ length (SwapScanner.emitted "claim"
                  (Emitter.delivered
                     (Emitter.callback false DemoScan.scanner (JStr "tx1")
                        (Done [DemoScan.payout_record; DemoScan.claim_record]))))
        = 1%nat).
Proof. intros [H _]. vm_compute in H. discriminate H. Qed.

Lemma funding_dispatch_witness :
  SwapScanner.on_transaction DemoScan.detect_funding DemoScan.scanner (JStr "tx1")
  = [SwapScanner.emit (JStr "funding")
       (JObj [("id", JStr "tx1"); ("network", JStr "testnet");
              ("index", JNum 2); ("invoice", JStr "lnbc1...");
              ("output", JStr "0014..."); ("script", JStr "76a9...");
              ("tokens", JNum 5000); ("type", JStr "funding");
              ("vout", JNum 0)])].
Proof.
  exact (proj1 (funding_dispatch DemoScan.detect_funding DemoScan.scanner
                  (JStr "tx1") DemoScan.funding_record eq_refl eq_refl)).
Defined.



(** * More on the walker *)

Section WalkerMore.

Import GetPastBlocks.

(** The iterations behind any call, with the world they reached. *)
Lemma getPastBlocks_walked cache current network w w' out :
  getPastBlocks cache current network w = Some (w', out) ->
  exists rs ending wl,
    walked cache network w rs wl
    /\ calls w w' = flat_map (events_of cache network) rs
                    ++ ending_events cache network ending
    /\ store w' = store wl /\ chain w' = chain w /\ clock wl <= clock w'
    /\ (length rs + length (List.filter is_lookup (ending_events cache network ending))
        <= fetchBlocksCount)%nat
    /\ (forall res, out = Done res ->
          ending = None /\ res = JObj [("blocks", JArr (map block_of rs))]).
Proof.
  intros Hrun.
  apply getPastBlocks_cases in Hrun as [(_ & -> & tag & ->) | (_ & Hrun)].
  { exists [], None, w. simpl. split; [ constructor | ].
    split; [ apply calls_app; by rewrite app_nil_r | ].
    do 3 (split; [ done || lia | ]).
    split; [ unfold fetchBlocksCount; lia | done ]. }
  destruct Hrun as (rs & c' & wl & _ & Hw & Hlen & Hout).
  pose proof (walked_trace _ _ _ _ _ Hw) as Ht.
  pose proof (walked_chain _ _ _ _ _ Hw) as Hch.
  destruct out as [err | res].
  - destruct Hout as (f & _ & _ & Hb & Hlt & _). exists rs, (Some f), wl.
    destruct Hb as (Hc & Hchf & _ & Htf & Hsf & _).
    split; [ done | ].
    split; [ apply calls_app; simpl; by rewrite Htf, Ht, <- app_assoc | ].
    do 3 (split; [ done || congruence | ]).
    split; [ destruct f; simpl; lia | done ].
  - destruct Hout as (-> & _ & _ & ->). exists rs, None, wl.
    split; [ done | ].
    split; [ apply calls_app; simpl; by rewrite Ht, app_nil_r | ].
    do 3 (split; [ done || lia | ]).
    split; [ simpl; lia | ]. by intros ? [= <-].
Qed.

(** Entries outside the hashes the iterations fetched are as they were. *)
Lemma walked_frame cache network w rs w' c t k :
  walked cache network w rs w' ->
  store w' c t k = store w c t k
  \/ (c = cache /\ t = JStr "block"
      /\ exists found prev txs, In (Miss k found prev txs) rs).
Proof.
  induction 1 as [ | w r w1 rs w' Hr _ IH ]; [ by left | ].
  destruct IH as [IH | (-> & -> & found & prev & txs & Hin)].
  2:{ right. do 2 (split; [ done | ]). exists found, prev, txs. by right. }
  destruct Hr as (_ & _ & _ & _ & _ & Hst).
  destruct r as [key found | key found prev txs].
  - left. by rewrite IH, Hst.
  - destruct Hst as (_ & _ & Hframe).
    destruct (decide (c = cache /\ t = JStr "block" /\ k = key))
      as [(-> & -> & ->) | Hne].
    + right. do 2 (split; [ done | ]). exists found, prev, txs. by left.
    + left. by rewrite IH, Hframe.
Qed.

Lemma miss_events cache network rs ending key found prev txs :
  In (Miss key found prev txs) rs ->
  In (ChainGet network key (Done (Chain.block prev txs)))
     (flat_map (events_of cache network) rs ++ ending_events cache network ending)
  /\ In (write_event cache key prev txs (Done tt))
       (flat_map (events_of cache network) rs ++ ending_events cache network ending).
Proof.
  intros Hin. split; apply in_or_app; left; apply in_flat_map;
    exists (Miss key found prev txs); (split; [ done | ]); simpl; tauto.
Qed.

(** X5 : the walk writes nothing but the blocks it fetched.  After any call
    the chain of the block source is as it was, and so is every cache entry,
    of whatever backend, type and key, except those of the selected backend
    under type ['block'] whose key is a hash the walk fetched from the block
    source and wrote, with the fixed TTL and the fetched block as value. *)
Theorem walk_writes_only_fetched (cache current network : JsVal) (w w' : World)
    (out : Outcome JsVal) :
  getPastBlocks cache current network w = Some (w', out) ->
  chain w' = chain w
  /\ forall c t k,
       store w' c t k = store w c t k
       \/ (c = cache /\ t = JStr "block"
           /\ exists prev txs,
                In (ChainGet network k (Done (Chain.block prev txs))) (calls w w')
                /\ In (CacheSet cache k 10800000 (JStr "block")
                         (Chain.block prev txs) (Done tt)) (calls w w')).
Proof.
  intros Hrun.
  apply getPastBlocks_walked in Hrun
    as (rs & ending & wl & Hw & Hcalls & Hst & Hch & _).
  split; [ done | ]. intros c t k. rewrite Hst, Hcalls.
  destruct (walked_frame _ _ _ _ _ c t k Hw)
    as [ | (-> & -> & found & prev & txs & Hin)]; [ by left | right ].
  do 2 (split; [ done | ]). exists prev, txs.
  apply (miss_events cache network rs ending) in Hin. exact Hin.
Qed.

Lemma fetches_and_writes cache network rs :
  length (List.filter is_fetch (flat_map (events_of cache network) rs))
  = length (List.filter (fun b => negb (marked b)) (map block_of rs))
  /\ length (List.filter is_write (flat_map (events_of cache network) rs))
     = length (List.filter (fun b => negb (marked b)) (map block_of rs)).
Proof.
  induction rs as [ | [key found | key found prev txs] rs [IHf IHw] ]; simpl;
    split; congruence.
Qed.

Lemma ending_counts cache network ending :
  (length (List.filter is_fetch (ending_events cache network ending))
   <= length (List.filter is_lookup (ending_events cache network ending)))%nat
  /\ (length (List.filter is_write (ending_events cache network ending))
      <= length (List.filter is_fetch (ending_events cache network ending)))%nat.
Proof. destruct ending as [ [ | | ] | ]; simpl; lia. Qed.

(** X6 : what a walk costs.  Any call, failing or not, makes at most ten
    cache lookups, no more block fetches than lookups and no more cache
    writes than fetches.  When it succeeds it made one lookup per returned
    block, and one fetch and one write for each returned block that is not
    marked [is_cached], none for the marked ones. *)
Theorem walk_io_accounting (cache current network : JsVal) (w w' : World)
    (out : Outcome JsVal) :
  getPastBlocks cache current network w = Some (w', out) ->
  (length (List.filter is_lookup (calls w w')) <= fetchBlocksCount)%nat
  /\ (length (List.filter is_fetch (calls w w'))
      <= length (List.filter is_lookup (calls w w')))%nat
  /\ (length (List.filter is_write (calls w w'))
      <= length (List.filter is_fetch (calls w w')))%nat
  /\ forall res,
       out = Done res ->
       exists bs,
         res = JObj [("blocks", JArr bs)]
         /\ length (List.filter is_lookup (calls w w')) = length bs
         /\ length (List.filter is_fetch (calls w w'))
            = length (List.filter (fun b => negb (marked b)) bs)
         /\ length (List.filter is_write (calls w w'))
            = length (List.filter (fun b => negb (marked b)) bs).
Proof.
  intros Hrun.
  apply getPastBlocks_walked in Hrun
    as (rs & ending & wl & _ & -> & _ & _ & _ & Hlen & Hdone).
  rewrite !List.filter_app, !length_app.
  pose proof (lookups_of_resolutions cache network rs) as HL.
  pose proof (fetches_of_resolutions cache network rs) as HF.
  destruct (fetches_and_writes cache network rs) as [HF' HW].
  destruct (ending_counts cache network ending) as [HeF HeW].
  split; [ lia | ]. split; [ lia | ]. split; [ lia | ].
  intros res Hres. destruct (Hdone res Hres) as [-> ->].
  exists (map block_of rs). simpl. rewrite length_map.
  split; [ done | ]. lia.
Qed.

Lemma linked_key_truthy c rs c' i r :
  linked c rs c' -> rs !! i = Some r -> truthy (key_of r) = true.
Proof.
  revert c i. induction rs as [ | r0 rs IH ]; intros c i Hl Hi; [ done | ].
  destruct Hl as (Hk & Ht & Hl). destruct i as [ | i ].
  - injection Hi as <-. congruence.
  - by apply (IH (prev_of r0) i).
Qed.

Lemma linked_cursors c rs c' i r :
  linked c rs c' -> rs !! i = Some r ->
  cursors_of c (map block_of rs) !! i = Some (key_of r).
Proof.
  revert c i. induction rs as [ | r0 rs IH ]; intros c i Hl Hi; [ done | ].
  destruct Hl as (Hk & Ht & Hl). destruct i as [ | i ].
  - injection Hi as <-. simpl. congruence.
  - apply (IH (prev_of r0) i Hl Hi).
Qed.

(** X7 : where each returned block comes from.  The block at index [i] of a
    successful result answers a truthy hash: the starting hash for the first
    block, the previous hash of the block before for the others.  The block
    is either the one the cached branch builds from the truthy value a cache
    lookup of that hash returned, or, unchanged, the block the block source
    holds for that hash on the given network. *)
Theorem blocks_resolve_cursors (cache current network : JsVal) (w w' : World)
    (res : JsVal) :
  getPastBlocks cache current network w = Some (w', Done res) ->
  exists bs,
    res = JObj [("blocks", JArr bs)]
    /\ forall i b,
         bs !! i = Some b ->
         exists key,
           cursors_of current bs !! i = Some key /\ truthy key = true
           /\ ((exists found,
                  truthy found = true /\ b = from_cache found
                  /\ In (CacheGet cache key (JStr "block") (Done found)) (calls w w'))
               \/ (exists prev txs,
                     chain w network key = Done (prev, txs)
                     /\ b = Chain.block prev txs)).
Proof.
  intros Hrun.
  apply getPastBlocks_cases in Hrun as [(_ & _ & ? & ?) | (_ & Hrun)]; [ done | ].
  destruct Hrun as (rs & c' & wl & Hl & Hw & Hlen & -> & Hne & Hend & ->).
  exists (map block_of rs). split; [ done | ].
  intros i b Hb. rewrite list_lookup_fmap in Hb.
  destruct (rs !! i) as [ r | ] eqn:Hr; [ | done ]. injection Hb as <-.
  exists (key_of r). split; [ by apply (linked_cursors _ _ c') | ].
  split; [ by apply (linked_key_truthy current rs c' i) | ].
  assert (Hin : In r rs) by (apply list_elem_of_In; by eapply list_elem_of_lookup_2).
  pose proof (walked_sound _ _ _ _ _ Hw) as Hs.
  rewrite Forall_forall in Hs. apply list_elem_of_In in Hin as Hin'.
  specialize (Hs r Hin').
  destruct r as [key found | key found prev txs]; simpl in *.
  - left. exists found. do 2 (split; [ done | ]).
    rewrite (calls_app w wl _ (walked_trace _ _ _ _ _ Hw)).
    apply in_flat_map. exists (Hit key found). split; [ done | ]. by left.
  - right. exists prev, txs. split; [ | done ].
    by destruct (walked_written _ _ _ _ _ _ _ _ _ Hw Hin) as [? _].
Qed.

End WalkerMore.

Lemma walk_io_accounting_witness :
  (length (List.filter is_write (calls Demo.w_down Demo.w_down'))
   <= length (List.filter is_fetch (calls Demo.w_down Demo.w_down')))%nat.
Proof.
  exact (proj1 (proj2 (proj2
           (walk_io_accounting (JStr "memory") (JStr "b3") (JStr "testnet")
              Demo.w_down Demo.w_down' Demo.out_down
              ltac:(vm_compute; reflexivity))))).
Defined.

Lemma blocks_resolve_cursors_witness :
  exists bs, Demo.page2 = JObj [("blocks", JArr bs)].
Proof.
  destruct (blocks_resolve_cursors (JStr "memory") (JStr "b2") (JStr "testnet")
              Demo.w2 Demo.w3 Demo.page2 ltac:(vm_compute; reflexivity))
    as (bs & Hbs & _).
  exists bs. exact Hbs.
Defined.

Lemma walk_writes_only_fetched_witness :
  store Demo.w1 (JStr "redis") (JStr "block") (JStr "b3")
  = store Demo.w0 (JStr "redis") (JStr "block") (JStr "b3").
Proof.
  destruct (walk_writes_only_fetched (JStr "memory") (JStr "b3") (JStr "testnet")
              Demo.w0 Demo.w1 (Done Demo.page1) ltac:(vm_compute; reflexivity))
    as [_ H].
  destruct (H (JStr "redis") (JStr "block") (JStr "b3")) as [Heq | [Hc _]].
  - exact Heq.
  - discriminate Hc.
Defined.

(** * More on the scanner *)

Section ScannerDispatch.

Import SwapScanner.

Lemma notify_refund id network (swap : Swap) :
  tagged swap "refund" ->
  notify id network (JObj swap)
  = emit (JStr "refund")
      (JObj [("id", id); ("network", network);
             ("index", assoc "index" swap);
             ("outpoint", assoc "outpoint" swap);
             ("script", assoc "script" swap);
             ("type", JStr "refund")]).
Proof.
  unfold tagged, notify. simpl. intros H. rewrite (is_str_true _ _ H). done.
Qed.

(** The four ways the [switch] goes, by the tag of the record. *)
Lemma notify_cases id network (swap : Swap) :
  (tagged swap "claim" /\ event (notify id network (JObj swap)) = JStr "claim")
  \/ (tagged swap "funding" /\ event (notify id network (JObj swap)) = JStr "funding")
  \/ (tagged swap "refund" /\ event (notify id network (JObj swap)) = JStr "refund")
  \/ (unrecognized swap /\ known_tag swap = false
      /\ notify id network (JObj swap)
         = emit (JStr "error") (JArr [JNum 500; JStr "UnknownSwapType"])).
Proof.
  unfold known_tag, has_tag, tagged.
  destruct (is_str (assoc "type" swap) "claim") eqn:Hc.
  { left. split; [ done | ]. by rewrite notify_claim. }
  destruct (is_str (assoc "type" swap) "funding") eqn:Hf.
  { right; left. split; [ done | ]. by rewrite notify_funding. }
  destruct (is_str (assoc "type" swap) "refund") eqn:Hr.
  { right; right; left. split; [ done | ]. by rewrite notify_refund. }
  assert (Hu : unrecognized swap).
  { unfold unrecognized, tagged. rewrite Hc, Hf, Hr. repeat split; discriminate. }
  right; right; right. split; [ exact Hu | ]. split; [ done | ].
  by apply notify_unrecognized.
Qed.

Lemma has_tag_of (swap : Swap) (tag tag' : string) :
  tagged swap tag -> has_tag tag' swap = String.eqb tag tag'.
Proof. unfold tagged, has_tag. by intros ->%is_str_true. Qed.

Lemma known_tag_of (swap : Swap) (tag : string) :
  tagged swap tag ->
  known_tag swap
  = String.eqb tag "claim" || String.eqb tag "funding" || String.eqb tag "refund".
Proof. intros H. unfold known_tag. by rewrite !(has_tag_of _ _ _ H). Qed.

Lemma emitted_cons name n ns :
  emitted name (n :: ns)
  = if is_str (event n) name then payload n :: emitted name ns
    else emitted name ns.
Proof. unfold emitted. simpl. by destruct (is_str (event n) name). Qed.

Lemma on_detected_counts (s : Scanner) (id : JsVal) (swaps : list Swap) :
  length (on_detected s id (Done swaps)) = length swaps
  /\ length (emitted "claim" (on_detected s id (Done swaps)))
     = length (List.filter (has_tag "claim") swaps)
  /\ length (emitted "funding" (on_detected s id (Done swaps)))
     = length (List.filter (has_tag "funding") swaps)
  /\ length (emitted "refund" (on_detected s id (Done swaps)))
     = length (List.filter (has_tag "refund") swaps)
  /\ length (emitted "error" (on_detected s id (Done swaps)))
     = length (List.filter (fun swap => negb (known_tag swap)) swaps).
Proof.
  cbn [on_detected]. split; [ by rewrite length_map | ].
  induction swaps as [ | swap swaps IH ]; [ done | ].
  destruct IH as (IHc & IHf & IHr & IHe).
  cbn [map List.filter]. rewrite !emitted_cons.
  destruct (notify_cases id (network s) swap)
    as [[Ht He] | [[Ht He] | [[Ht He] | (Hu & Hk & He)]]].
  - rewrite He, !(has_tag_of _ _ _ Ht), (known_tag_of _ _ Ht). simpl.
    repeat split; congruence.
  - rewrite He, !(has_tag_of _ _ _ Ht), (known_tag_of _ _ Ht). simpl.
    repeat split; congruence.
  - rewrite He, !(has_tag_of _ _ _ Ht), (known_tag_of _ _ Ht). simpl.
    repeat split; congruence.
  - rewrite He, Hk. destruct Hu as (H1 & H2 & H3). unfold tagged in *.
    assert (Hc : has_tag "claim" swap = false)
      by (unfold has_tag; by destruct (is_str (assoc "type" swap) "claim")).
    assert (Hf : has_tag "funding" swap = false)
      by (unfold has_tag; by destruct (is_str (assoc "type" swap) "funding")).
    assert (Hr : has_tag "refund" swap = false)
      by (unfold has_tag; by destruct (is_str (assoc "type" swap) "refund")).
    rewrite Hc, Hf, Hr. simpl. repeat split; congruence.
Qed.

Lemma forEach_unheard id network swaps :
  Emitter.forEach false id network swaps
  = Emitter.mkRun
      (map (fun swap => notify id network (JObj swap)) (Emitter.known_prefix swaps))
      (if forallb known_tag swaps then None
       else Some (JArr [JNum 500; JStr "UnknownSwapType"])).
Proof.
  induction swaps as [ | swap swaps IH ]; [ done | ].
  cbn [Emitter.forEach Emitter.known_prefix forallb map]. rewrite throws_unheard.
  destruct (notify_cases id network swap)
    as [[Ht He] | [[Ht He] | [[Ht He] | (Hu & Hk & He)]]].
  - rewrite He, (known_tag_of _ _ Ht), IH. simpl.
    by destruct (forallb known_tag swaps).
  - rewrite He, (known_tag_of _ _ Ht), IH. simpl.
    by destruct (forallb known_tag swaps).
  - rewrite He, (known_tag_of _ _ Ht), IH. simpl.
    by destruct (forallb known_tag swaps).
  - by rewrite He, Hk.
Qed.

(** X1 : one notification per record, while ['error'] is listened for.  On
    a scanner with an ['error'] listener, whatever records the detector
    returns, nothing is thrown and the listeners receive as many
    notifications as there are records: as many ['claim'], ['funding'] and
    ['refund'] notifications as records with that tag, and as many ['error']
    notifications as records with none of the three tags.  On a scanner
    without one, the listeners receive the notifications of the records
    before the first record with none of the three tags, the ['error'] for
    that record is thrown, and the records after it get no notification;
    nothing is thrown when every record has one of the three tags. *)
Theorem one_notification_per_record (s : Scanner) (id : JsVal) (swaps : list Swap) :
  Emitter.thrown (Emitter.callback true s id (Done swaps)) = None
  /\ length (Emitter.delivered (Emitter.callback true s id (Done swaps)))
     = length swaps
  /\ length (emitted "claim"
               (Emitter.delivered (Emitter.callback true s id (Done swaps))))
     = length (List.filter (has_tag "claim") swaps)
  /\ length (emitted "funding"
               (Emitter.delivered (Emitter.callback true s id (Done swaps))))
     = length (List.filter (has_tag "funding") swaps)
  /\ length (emitted "refund"
               (Emitter.delivered (Emitter.callback true s id (Done swaps))))
     = length (List.filter (has_tag "refund") swaps)
  /\ length (emitted "error"
               (Emitter.delivered (Emitter.callback true s id (Done swaps))))
     = length (List.filter (fun swap => negb (known_tag swap)) swaps)
  /\ Emitter.delivered (Emitter.callback false s id (Done swaps))
     = map (fun swap => notify id (network s) (JObj swap))
         (Emitter.known_prefix swaps)
  /\ Emitter.thrown (Emitter.callback false s id (Done swaps))
     = (if forallb known_tag swaps then None
        else Some (JArr [JNum 500; JStr "UnknownSwapType"])).
Proof.
  rewrite callback_listening. cbn [Emitter.delivered Emitter.thrown].
  split; [ done | ].
  destruct (on_detected_counts s id swaps) as (H0 & H1 & H2 & H3 & H4).
  do 5 (split; [ done | ]).
  cbn [Emitter.callback]. by rewrite forEach_unheard.
Qed.

(** X2 : what each notification is.  When the detector fails the scanner
    emits one ['error'] notification carrying the failure as it is, and
    nothing else.  Otherwise every notification is either an ['error'] with
    payload [[500, 'UnknownSwapType']], emitted for a record with none of the
    three tags, or goes out under the tag of one of the records, ['claim'],
    ['funding'] or ['refund'], with a payload whose [type] is that tag, whose
    [id] and [network] are the transaction id and the network of the scanner,
    and whose [index] and [script] are those of the record. *)
Theorem notifications_classified (s : Scanner) (id : JsVal)
    (res : Outcome (list Swap)) :
  (forall err, on_detected s id (Failed err) = [emit (JStr "error") err])
  /\ forall swaps n,
       res = Done swaps ->
       In n (on_detected s id res) ->
       (n = emit (JStr "error") (JArr [JNum 500; JStr "UnknownSwapType"])
        /\ exists swap, In swap swaps /\ unrecognized swap)
       \/ (exists swap tag,
              In swap swaps /\ tagged swap tag
              /\ (tag = "claim" \/ tag = "funding" \/ tag = "refund")
              /\ event n = JStr tag
              /\ get_field (payload n) "type" = JStr tag
              /\ get_field (payload n) "id" = id
              /\ get_field (payload n) "network" = network s
              /\ get_field (payload n) "index" = assoc "index" swap
              /\ get_field (payload n) "script" = assoc "script" swap).
Proof.
  split; [ done | ].
  intros swaps n -> Hin. cbn [on_detected] in Hin.
  apply in_map_iff in Hin as (swap & <- & Hin).
  destruct (notify_cases id (network s) swap)
    as [[Ht _] | [[Ht _] | [[Ht _] | (Hu & _ & He)]]].
  - right. exists swap, "claim". rewrite (notify_claim _ _ _ Ht). simpl.
    repeat split; try done. by left.
  - right. exists swap, "funding". rewrite (notify_funding _ _ _ Ht). simpl.
    repeat split; try done. right. by left.
  - right. exists swap, "refund". rewrite (notify_refund _ _ _ Ht). simpl.
    repeat split; try done. right. by right.
  - left. split; [ done | ]. by exists swap.
Qed.

End ScannerDispatch.

Lemma notifications_classified_witness :
  get_field
    (SwapScanner.payload
       (SwapScanner.notify (JStr "tx1") (JStr "testnet") (JObj DemoScan.claim_record)))
    "network"
  = JStr "testnet".
Proof.
  destruct (notifications_classified DemoScan.scanner (JStr "tx1")
              (Done [DemoScan.payout_record; DemoScan.claim_record])) as [_ H].
  destruct (H [DemoScan.payout_record; DemoScan.claim_record]
              (SwapScanner.notify (JStr "tx1") (JStr "testnet")
                 (JObj DemoScan.claim_record))
              eq_refl ltac:(right; left; reflexivity))
    as [[Herr _] | (swap & tag & _ & _ & _ & _ & _ & _ & Hnet & _)].
  - discriminate Herr.
  - exact Hnet.
Defined.

Section ScannerMore.

Import SwapScanner.

Variable detectSwaps : JsVal -> JsVal -> JsVal -> Outcome (list Swap).


(** X4 : making a scanner.  Without a cache selector the construction
    throws ['ExpectedCacheTypeForScanCaching'], whatever the network; with a
    cache selector and without a network it throws ['ExpectedNetworkName'].
    A scanner that was made holds a truthy selector and a truthy network,
    the ones it was given, and hands exactly those to the detector with
    every transaction id. *)
Theorem scanner_construction (cache0 network0 : JsVal) :
  (truthy cache0 = false ->
   swapScanner cache0 network0 = inl "ExpectedCacheTypeForScanCaching")
  /\ (truthy cache0 = true -> truthy network0 = false ->
      swapScanner cache0 network0 = inl "ExpectedNetworkName")
  /\ forall s,
       swapScanner cache0 network0 = inr s ->
       truthy cache0 = true /\ truthy network0 = true
       /\ forall id,
            on_transaction detectSwaps s id
            = on_detected s id (detectSwaps cache0 id network0)
            /\ (forall n, In n (on_transaction detectSwaps s id) ->
                  event n = JStr "error"
                  \/ get_field (payload n) "network" = network0).
Proof.
  unfold swapScanner.
  split; [ by intros -> | ]. split; [ by intros -> -> | ].
  intros s. destruct (truthy cache0); [ | done ].
  destruct (truthy network0); [ | done ]. simpl. intros [= <-].
  do 2 (split; [ done | ]). intros id. split; [ done | ].
  intros n Hin. unfold on_transaction in Hin. simpl in Hin.
  destruct (detectSwaps cache0 id network0) as [err | swaps] eqn:Hd.
  - destruct Hin as [<- | []]. by left.
  - destruct (notifications_classified (mkScanner cache0 network0) id (Done swaps))
      as [_ H].
    destruct (H swaps n eq_refl Hin)
      as [[-> _] | (swap & tag & _ & _ & _ & _ & _ & _ & Hnet & _)];
      [ by left | by right ].
Qed.

End ScannerMore.


Lemma scanner_construction_witness :
  SwapScanner.swapScanner JUndefined (JStr "testnet")
  = inl "ExpectedCacheTypeForScanCaching"
  /\ SwapScanner.swapScanner (JStr "memory") (JStr "")
     = inl "ExpectedNetworkName"
  /\ truthy (JStr "memory") = true.
Proof.
  split; [ | split ].
  - apply (scanner_construction detect_refund JUndefined (JStr "testnet")).
    reflexivity.
  - apply (scanner_construction detect_refund (JStr "memory") (JStr "")); reflexivity.
  - destruct (scanner_construction detect_refund (JStr "memory") (JStr "testnet"))
      as (_ & _ & H).
    exact (proj1 (H DemoScan.scanner eq_refl)).
Defined.

(** * A second walk over the blocks a first walk cached *)

Section WarmWalk.

Import GetPastBlocks.

Variables cache network network2 current : JsVal.
Variables (w w1 w2 wl2 : World) (rs1 rs2 : list Resolution) (c1' c2' : JsVal).

(** The first walk: it completed, and every one of its lookups missed. *)
Hypothesis Hl1 : linked current rs1 c1'.
Hypothesis Hw1 : walked cache network w rs1 w1.
Hypothesis Hne1 : rs1 <> [].
Hypothesis Hlen1 : (length rs1 <= fetchBlocksCount)%nat.
Hypothesis Hend1 : length rs1 = fetchBlocksCount \/ truthy c1' = false.
Hypothesis Hcold : forall r, In r rs1 -> exists k f p t, r = Miss k f p t.

(** The iterations of the second walk, over the store the first left, all
    before the TTL has passed since the first walk began. *)
Hypothesis Hl2 : linked current rs2 c2'.
Hypothesis Hw2 : walked cache network2 w2 rs2 wl2.
Hypothesis Hlen2 : (length rs2 <= fetchBlocksCount)%nat.
Hypothesis Hstore : store w2 = store w1.
Hypothesis Hclock : clock wl2 < clock w + blockExpirationMs.

Lemma warm_entry k f p t :
  In (Miss k f p t) rs1 ->
  exists en, store w2 cache (JStr "block") k = Some en
             /\ value en = Chain.block p t
             /\ clock wl2 < expires en.
Proof using Hw1 Hstore Hclock.
  intros Hin.
  destruct (walked_written _ _ _ _ _ _ _ _ _ Hw1 Hin) as (_ & en & Hst & Hv & He).
  exists en. rewrite Hstore. do 2 (split; [ done | ]).
  destruct He as [He _]. exact (Z.lt_le_trans _ _ _ Hclock He).
Qed.

Lemma warm_hit k f p t r2 :
  In (Miss k f p t) rs1 -> In r2 rs2 -> key_of r2 = k ->
  r2 = Hit k (Chain.block p t).
Proof.
  intros Hin Hin2 Hk.
  destruct (warm_entry _ _ _ _ Hin) as (en & Hst & Hv & He).
  destruct (walked_reuse _ _ _ _ _ k en Hw2 Hst) as [_ Hall];
    [ by rewrite Hv | done | ].
  rewrite Forall_forall in Hall. apply list_elem_of_In in Hin2.
  rewrite (Hall r2 Hin2 Hk). by rewrite Hv.
Qed.

(** In the first walk a block with a previous hash is followed by the
    resolution of that hash, unless it is the tenth. *)
Lemma cold_next i k f p t :
  rs1 !! i = Some (Miss k f p t) -> truthy p = true ->
  (S i < fetchBlocksCount)%nat ->
  exists k' f' p' t', rs1 !! S i = Some (Miss k' f' p' t') /\ k' = p.
Proof.
  intros Hi Hp Hlt.
  destruct (rs1 !! S i) as [ r' | ] eqn:Hi'.
  - destruct (linked_next _ _ _ _ _ _ Hl1 Hi Hi') as [Hk _].
    assert (Hin : In r' rs1)
      by (apply list_elem_of_In; by eapply list_elem_of_lookup_2).
    destruct (Hcold r' Hin) as (k' & f' & p' & t' & ->).
    by exists k', f', p', t'.
  - exfalso. apply lookup_ge_None in Hi'.
    pose proof (lookup_lt_Some _ _ _ Hi) as Hlt'.
    assert (Hlast : last rs1 = Some (Miss k f p t)).
    { rewrite last_lookup. replace (pred (length rs1)) with i by lia. done. }
    pose proof (linked_last _ _ _ _ Hl1 Hlast) as Hc. simpl in Hc.
    destruct Hend1 as [Hten | Hfalsy]; [ lia | ].
    unfold prev_of in Hc. simpl in Hc. congruence.
Qed.

Lemma cold_first : exists f p t, rs1 !! 0%nat = Some (Miss current f p t).
Proof.
  destruct (rs1 !! 0%nat) as [ r1 | ] eqn:H0.
  - destruct (linked_first _ _ _ _ Hl1 H0) as [Hk _].
    assert (Hin : In r1 rs1)
      by (apply list_elem_of_In; by eapply list_elem_of_lookup_2).
    destruct (Hcold r1 Hin) as (k & f & p & t & ->). simpl in Hk. subst k.
    by exists f, p, t.
  - apply lookup_ge_None in H0. exfalso. apply Hne1.
    apply length_zero_iff_nil. lia.
Qed.

(** The second walk retraces the first, hit for miss. *)
Lemma warm_aligned i r2 :
  rs2 !! i = Some r2 ->
  exists k f p t, rs1 !! i = Some (Miss k f p t) /\ r2 = Hit k (Chain.block p t).
Proof.
  revert r2. induction i as [ | i IH ]; intros r2 Hi.
  - destruct (linked_first _ _ _ _ Hl2 Hi) as [Hk _].
    destruct cold_first as (f & p & t & H0).
    exists current, f, p, t. split; [ done | ].
    apply (warm_hit current f p t).
    + apply list_elem_of_In. by eapply list_elem_of_lookup_2.
    + apply list_elem_of_In. by eapply list_elem_of_lookup_2.
    + done.
  - pose proof (lookup_lt_Some _ _ _ Hi) as Hlt.
    destruct (rs2 !! i) as [ r | ] eqn:Hr; [ | apply lookup_ge_None in Hr; lia ].
    destruct (IH r eq_refl) as (k & f & p & t & H1 & ->).
    destruct (linked_next _ _ _ _ _ _ Hl2 Hr Hi) as [Hk Ht].
    unfold prev_of in Hk, Ht. simpl in Hk, Ht.
    destruct (cold_next i k f p t H1 Ht ltac:(lia)) as (k' & f' & p' & t' & H1' & ->).
    exists p, f', p', t'. split; [ done | ].
    apply (warm_hit p f' p' t').
    + apply list_elem_of_In. by eapply list_elem_of_lookup_2.
    + apply list_elem_of_In. by eapply list_elem_of_lookup_2.
    + done.
Qed.

Lemma warm_all_hits : Forall (fun e => is_lookup e = true)
                        (flat_map (events_of cache network2) rs2).
Proof.
  apply Forall_forall. intros e He. apply list_elem_of_In in He.
  apply in_flat_map in He as (r & Hr & He).
  apply list_elem_of_In in Hr. apply list_elem_of_lookup_1 in Hr as [i Hi].
  destruct (warm_aligned i r Hi) as (k & f & p & t & _ & ->).
  simpl in He. destruct He as [<- | []]. done.
Qed.

(** The cursor the second walk stopped at was resolved by the first walk
    too, when the second walk would have gone on. *)
Lemma warm_cursor :
  (length rs2 < fetchBlocksCount)%nat -> truthy c2' = true ->
  exists f p t, In (Miss c2' f p t) rs1.
Proof.
  intros Hlt Ht.
  destruct (last rs2) as [ r | ] eqn:Hlast.
  - pose proof (linked_last _ _ _ _ Hl2 Hlast) as Hc.
    rewrite last_lookup in Hlast.
    destruct (warm_aligned _ _ Hlast) as (k & f & p & t & H1 & ->).
    unfold prev_of in Hc. simpl in Hc. rewrite Hc in Ht |- *.
    assert (Hpos : (0 < length rs2)%nat).
    { apply lookup_lt_Some in Hlast. lia. }
    destruct (cold_next _ k f p t H1 Ht ltac:(lia)) as (k' & f' & p' & t' & H1' & ->).
    exists f', p', t'. apply list_elem_of_In. by eapply list_elem_of_lookup_2.
  - apply last_None in Hlast. pose proof Hl2 as Hc. rewrite Hlast in Hc.
    simpl in Hc. rewrite <- Hc.
    destruct cold_first as (f & p & t & H0).
    exists f, p, t. apply list_elem_of_In. by eapply list_elem_of_lookup_2.
Qed.

(** A second walk that ends on its test returns the blocks of the first,
    each rebuilt by the cached branch. *)
Lemma warm_blocks :
  length rs2 = fetchBlocksCount \/ truthy c2' = false ->
  rs2 <> [] ->
  map block_of rs2 = map from_cache (map block_of rs1).
Proof.
  intros Hend2 Hne2.
  assert (Hle : (length rs2 <= length rs1)%nat).
  { destruct (last rs2) as [ r | ] eqn:Hlast; [ | by apply last_None in Hlast ].
    rewrite last_lookup in Hlast.
    destruct (warm_aligned _ _ Hlast) as (k & f & p & t & H1 & _).
    apply lookup_lt_Some in H1, Hlast. lia. }
  assert (Hge : (length rs1 <= length rs2)%nat).
  { destruct (decide (length rs1 <= length rs2)%nat) as [ | Hgt ]; [ done | ].
    exfalso.
    destruct Hend2 as [ | Hfalsy ]; [ lia | ].
    destruct (last rs2) as [ r | ] eqn:Hlast; [ | by apply last_None in Hlast ].
    pose proof (linked_last _ _ _ _ Hl2 Hlast) as Hc.
    rewrite last_lookup in Hlast.
    destruct (warm_aligned _ _ Hlast) as (k & f & p & t & H1 & ->).
    unfold prev_of in Hc. simpl in Hc. rewrite Hc in Hfalsy.
    assert (Hpos : (0 < length rs2)%nat).
    { apply lookup_lt_Some in Hlast. lia. }
    destruct (lookup_lt_is_Some_2 rs1 (S (pred (length rs2))) ltac:(lia)) as [r' Hr'].
    destruct (linked_next _ _ _ _ _ _ Hl1 H1 Hr') as [_ Ht].
    unfold prev_of in Ht. simpl in Ht. congruence. }
  apply list_eq. intros i. rewrite !list_lookup_fmap.
  destruct (rs2 !! i) as [ r2 | ] eqn:Hi.
  - destruct (warm_aligned _ _ Hi) as (k & f & p & t & -> & ->). done.
  - apply lookup_ge_None in Hi. rewrite lookup_ge_None_2 by lia. done.
Qed.

End WarmWalk.

(** X8 : a second walk returns what the first cached.  Take a walk that
    succeeded with every lookup missing, so that it fetched and wrote every
    block it returned; then any walk from the same starting hash over the
    cache it left, on whatever network, that ends before three hours have
    passed since the first began, calls nothing but the cache.  When it
    succeeds its result is the result of the first walk with every block
    rebuilt by the cached branch: the same [previous_block_hash] and
    [transaction_ids], plus [is_cached: true].  When it fails it is on a cache
    read, its last call. *)
Theorem warm_walk_returns_cached (cache current network network2 : JsVal)
    (w w1 w2 w3 : World) (res1 : JsVal) (out2 : Outcome JsVal) :
  GetPastBlocks.getPastBlocks cache current network w = Some (w1, Done res1) ->
  (forall c k t found,
      In (CacheGet c k t (Done found)) (calls w w1) -> truthy found = false) ->
  store w2 = store w1 ->
  truthy network2 = true ->
  GetPastBlocks.getPastBlocks cache current network2 w2 = Some (w3, out2) ->
  clock w3 < clock w + 1000 * 60 * 60 * 3 ->
  Forall (fun e => is_lookup e = true) (calls w2 w3)
  /\ match out2 with
     | Done res2 =>
         exists bs,
           res1 = JObj [("blocks", JArr bs)]
           /\ res2 = JObj [("blocks", JArr (map from_cache bs))]
     | Failed err =>
         exists pre key,
           calls w2 w3 = pre ++ [CacheGet cache key (JStr "block") (Failed err)]
     end.
Proof.
  intros Hrun1 Hmiss Hstore Hn2 Hrun2 Hclock.
  apply getPastBlocks_cases in Hrun1 as [(_ & _ & ? & ?) | (Hv1 & Hrun1)]; [ done | ].
  destruct Hrun1 as (rs1 & c1' & wl1 & Hl1 & Hw1 & Hlen1 & <- & Hne1 & Hend1 & ->).
  assert (Hcold : forall r, In r rs1 -> exists k f p t, r = Miss k f p t).
  { intros [k found | k f p t] Hin; [ exfalso | by exists k, f, p, t ].
    pose proof (walked_sound _ _ _ _ _ Hw1) as Hs. rewrite Forall_forall in Hs.
    apply list_elem_of_In in Hin as Hin'. specialize (Hs _ Hin'). simpl in Hs.
    rewrite (Hmiss cache k (JStr "block") found) in Hs; [ done | ].
    rewrite (calls_app w w1 _ (walked_trace _ _ _ _ _ Hw1)).
    apply in_flat_map. exists (Hit k found). split; [ done | ]. by left. }
  apply getPastBlocks_cases in Hrun2 as [(Hinv & _) | (_ & Hrun2)].
  { exfalso. apply Hinv. by destruct Hv1 as (? & ? & _). }
  destruct Hrun2 as (rs2 & c2' & wl2 & Hl2 & Hw2 & Hlen2 & Hout).
  pose proof (walked_trace _ _ _ _ _ Hw2) as Ht2.
  assert (Hcl : clock wl2 <= clock w3).
  { destruct out2 as [err | res2].
    - by destruct Hout as (f & _ & _ & (? & _) & _).
    - destruct Hout as (-> & _). lia. }
  assert (Hclock' : clock wl2 < clock w + GetPastBlocks.blockExpirationMs)
    by (unfold GetPastBlocks.blockExpirationMs; lia).
  pose proof (warm_all_hits cache network network2 current w w1 w2 wl2 rs1 rs2
                c1' c2' Hl1 Hw1 Hne1 Hlen1 Hend1 Hcold Hl2 Hw2 Hlen2 Hstore Hclock')
    as Hhits.
  destruct out2 as [err | res2].
  - destruct Hout as (f & Hk & He & Hb & Hlt & Htr).
    destruct (warm_cursor cache network network2 current w w1 w2 wl2 rs1 rs2
                c1' c2' Hl1 Hw1 Hne1 Hlen1 Hend1 Hcold Hl2 Hw2 Hlen2 Hstore Hclock'
                Hlt Htr) as (f1 & p1 & t1 & Hin).
    destruct (walked_written _ _ _ _ _ _ _ _ _ Hw1 Hin) as (_ & en & Hst & Hv & Hexp).
    rewrite <- Hstore in Hst.
    destruct (walked_reuse _ _ _ _ _ c2' en Hw2 Hst) as [Hstl _];
      [ by rewrite Hv | unfold GetPastBlocks.blockExpirationMs in *; lia | ].
    assert (Hfound : failure_found f = None).
    { apply (breaks_reuse cache network2 wl2 f w3 c2' en Hb Hstl);
        [ by rewrite Hv | unfold GetPastBlocks.blockExpirationMs in *; lia | done ]. }
    destruct f as [key e | key found e | key found p t e]; try done.
    simpl in He, Hk. subst e key.
    destruct Hb as (_ & _ & _ & Htf & _). simpl in Htf.
    assert (Hcalls : calls w2 w3
                     = flat_map (events_of cache network2) rs2
                       ++ [CacheGet cache c2' (JStr "block") (Failed err)]).
    { apply calls_app. by rewrite Htf, Ht2, <- app_assoc. }
    rewrite Hcalls. split; [ | by eexists _, _ ].
    apply Forall_app. split; [ done | ]. by repeat constructor.
  - destruct Hout as (-> & Hne2 & Hend2 & ->).
    rewrite (calls_app w2 wl2 _ Ht2). split; [ done | ].
    exists (map block_of rs1). split; [ done | ].
    by rewrite (warm_blocks cache network network2 current w w1 w2 wl2 rs1 rs2
                  c1' c2' Hl1 Hw1 Hne1 Hlen1 Hend1 Hcold Hl2 Hw2 Hlen2 Hstore Hclock'
                  Hend2 Hne2).
Qed.

Lemma warm_walk_returns_cached_witness :
  exists bs,
    Demo.page1 = JObj [("blocks", JArr bs)]
    /\ DemoAgain.page1_again = JObj [("blocks", JArr (map from_cache bs))].
Proof.
  exact (proj2 (warm_walk_returns_cached (JStr "memory") (JStr "b3") (JStr "testnet")
                  (JStr "mainnet") Demo.w0 Demo.w1 Demo.w2 DemoAgain.w3_again
                  Demo.page1 (Done DemoAgain.page1_again)
                  ltac:(vm_compute; reflexivity)
                  ltac:(vm_compute; intros c k t found H;
                        repeat (destruct H as [H | H]; [ by injection H as _ _ _ <- || discriminate H | ]);
                        destruct H)
                  eq_refl eq_refl ltac:(vm_compute; reflexivity)
                  ltac:(vm_compute; reflexivity))).
Defined.

(** * A cached value that carries no previous hash *)

(** X9 : a cached value without a previous hash ends the walk at once.  When
    the lookup of the starting hash returns a truthy value that has no truthy
    [previous_block_hash] (a block at the end of the chain, or any value that
    is not a block at all), the walk makes no other call and succeeds with
    the single block the cached branch builds from that value. *)
Theorem cached_value_without_previous_ends_walk (cache current network : JsVal)
    (w w' : World) (out : Outcome JsVal) (c k t found : JsVal)
    (rest : list Event) :
  GetPastBlocks.getPastBlocks cache current network w = Some (w', out) ->
  calls w w' = CacheGet c k t (Done found) :: rest ->
  truthy found = true ->
  truthy (get_field found "previous_block_hash") = false ->
  rest = [] /\ k = current
  /\ out = Done (JObj [("blocks", JArr [from_cache found])]).
Proof.
  intros Hrun Hcalls Hfound Hprev.
  apply getPastBlocks_cases in Hrun as [(_ & -> & _) | (_ & Hrun)].
  { unfold calls in Hcalls. by rewrite drop_all in Hcalls. }
  destruct Hrun as (rs & c' & wl & Hl & Hw & _ & Hout).
  pose proof (walked_trace _ _ _ _ _ Hw) as Ht.
  pose proof (walked_sound _ _ _ _ _ Hw) as Hs.
  destruct rs as [ | r0 rs ].
  - destruct out as [err | res]; [ | by destruct Hout as (_ & ? & _) ].
    destruct Hout as (f & _ & _ & Hb & _).
    destruct Hb as (_ & _ & Hsf & Htf & _).
    simpl in Ht. rewrite app_nil_r in Ht. rewrite Ht in Htf.
    rewrite (calls_app _ _ _ Htf) in Hcalls.
    destruct f as [key e | key x e | key x p tx e]; simpl in Hcalls, Hsf;
      injection Hcalls as; subst; congruence.
  - apply Forall_cons in Hs as [Hs0 _]. destruct Hl as (Hk & _ & Hl).
    assert (exists tail,
               calls w w' = events_of cache network r0 ++ tail
               /\ (forall res, out = Done res ->
                     tail = flat_map (events_of cache network) rs))
      as (tail & Hc & Htail).
    { destruct out as [err | res].
      - destruct Hout as (f & _ & _ & (_ & _ & _ & Htf & _) & _).
        exists (flat_map (events_of cache network) rs
                ++ failure_events cache network f).
        split; [ | done ]. apply calls_app.
        rewrite Htf, Ht. cbn [flat_map]. rewrite <- !app_assoc. reflexivity.
      - destruct Hout as (-> & _).
        exists (flat_map (events_of cache network) rs). split; [ | done ].
        apply calls_app. rewrite Ht. cbn [flat_map]. reflexivity. }
    rewrite Hc in Hcalls.
    destruct r0 as [key x | key x p tx]; simpl in Hcalls, Hs0, Hk.
    2:{ injection Hcalls as _ _ _ E _. congruence. }
    injection Hcalls as <- <- <- <- <-.
    unfold prev_of in Hl. simpl in Hl.
    destruct rs as [ | r1 rs ]; [ | destruct Hl as (_ & Htr & _); congruence ].
    simpl in Hl.
    destruct out as [err | res].
    + destruct Hout as (f & _ & _ & _ & _ & Htr). rewrite <- Hl in Htr. congruence.
    + destruct Hout as (-> & _ & _ & ->). rewrite (Htail _ eq_refl). by simpl.
Qed.

Lemma cached_value_without_previous_ends_walk_witness :
  DemoAgain.out_tip = Done (JObj [("blocks", JArr [from_cache (JNum 5)])]).
Proof.
  exact (proj2 (proj2
           (cached_value_without_previous_ends_walk (JStr "memory") (JStr "b9")
              (JStr "testnet") DemoAgain.w_tip DemoAgain.w_tip' DemoAgain.out_tip
              (JStr "memory") (JStr "b9") (JStr "block") (JNum 5) []
              ltac:(vm_compute; reflexivity) ltac:(vm_compute; reflexivity)
              eq_refl eq_refl))).
Defined.
